(** * plasma-wallet-tracker: wallet listener manager and transfer extraction

    A shallow embedding of the tracking engine of the service:

    - [Domain]     the records of [internal/domain] (transfers, transactions,
                   notifications, the error values);
    - [Usecase]    the wallet listener manager of
                   [internal/usecase/wallet_tracker.go] and the command
                   dispatcher;
    - [Blockchain] the involvement filter, transfer extraction and token
                   symbol resolution of
                   [internal/infrastructure/blockchain/plasma_client.go].

    Maps of the Go code are finite maps ([gmap]); a read of a missing key
    gives Go's zero value, which is written out where the code relies on it.
    Code that runs under the manager lock is one atomic state transformer. *)

From Stdlib Require Import ZArith List String Ascii Sorted Lia.
From Stdlib Require Strings.Byte.
From stdpp Require Import base option list strings gmap fin_maps.

Local Open Scope Z_scope.

(** ** Domain records *)

Module Domain.

(** [type WalletAddress string], [type UserID int64],
    [type TransactionHash string]; [time.Time] values are kept as an
    integer instant, [*big.Int] values as integers.  Field names are those
    of the Go structs; where two structs share a name, the fields of
    [Transaction] carry the prefix [Tx], those of [WalletNotification] the
    prefix [N] and those of [Command] the prefix [C]. *)
Definition WalletAddress := string.
Definition UserID := Z.
Definition TransactionHash := string.
Definition Time := Z.

Record Transfer := mkTransfer {
  TxHash : TransactionHash;
  From : WalletAddress;
  To : WalletAddress;
  Value : Z;
  TokenSymbol : string;
  TokenAddress : string;
  LogIndex : Z
}.

Record Transaction := mkTransaction {
  Hash : TransactionHash;
  TxFrom : WalletAddress;
  TxTo : WalletAddress;
  BlockNumber : Z;
  TxTimestamp : Time;
  GasUsed : Z;
  GasPrice : Z;
  Transfers : list Transfer
}.

Record WalletNotification := mkWalletNotification {
  NWalletAddress : WalletAddress;
  NTransaction : Transaction;
  NTransfers : list Transfer;
  NSubscribers : list UserID;
  NTimestamp : Time
}.

(** [type CommandType string] and its two constants. *)
Definition CommandType := string.
Definition AddWalletCommand : CommandType := "add_wallet".
Definition RemoveWalletCommand : CommandType := "remove_wallet".

Record Command := mkCommand {
  CType : CommandType;
  CWalletAddress : WalletAddress;
  CUserID : UserID;
  CTimestamp : Time
}.

(** The error values of [internal/domain/errors.go]. *)
Inductive error :=
| ErrWalletNotFound
| ErrSubscriptionExists
| ErrInvalidAddress
| ErrConnectionFailed
| ErrTransactionNotFound.

End Domain.

(** ** The wallet listener manager *)

Module Usecase.
Import Domain.

(** A [context.CancelFunc] is identified by the number of the context it
    cancels; contexts are numbered in creation order. *)
Definition CancelFunc := nat.

(** What the manager does to the outside: it starts a listener goroutine
    on a fresh context, or calls a cancel function. *)
Inductive Effect :=
| StartListener (ctx : CancelFunc) (wallet : WalletAddress)
| Cancel (ctx : CancelFunc).

Record WalletTracker := mkWalletTracker {
  listeners : gmap string CancelFunc;
  subscribers : gmap string (list UserID);
  nextCtx : nat;
  effects : list Effect
}.

Definition NewWalletTracker : WalletTracker :=
  {| listeners := ∅; subscribers := ∅; nextCtx := 0%nat; effects := [] |}.

(** [wt.subscribers[walletAddress]]: a missing key reads as the nil slice. *)
Definition subscribersOf (wt : WalletTracker) (walletAddress : WalletAddress) : list UserID :=
  default [] (subscribers wt !! walletAddress).

Definition AddWallet (walletAddress : WalletAddress) (userID : UserID)
    (wt : WalletTracker) : option error * WalletTracker :=
  let subscribers' :=
    <[walletAddress := subscribersOf wt walletAddress ++ [userID]]> (subscribers wt) in
  match listeners wt !! walletAddress with
  | Some _ =>
      (None, {| listeners := listeners wt; subscribers := subscribers';
                nextCtx := nextCtx wt; effects := effects wt |})
  | None =>
      let cancel := nextCtx wt in
      (None, {| listeners := <[walletAddress := cancel]> (listeners wt);
                subscribers := subscribers';
                nextCtx := S cancel;
                effects := effects wt ++ [StartListener cancel walletAddress] |})
  end.

(** The [for i, id := range subscribers] loop of [RemoveWallet]: the index
    of the first entry equal to [userID], counted from [i]. *)
Fixpoint firstIndex (userID : UserID) (subs : list UserID) (i : nat) : option nat :=
  match subs with
  | [] => None
  | id :: rest => if Z.eqb id userID then Some i else firstIndex userID rest (S i)
  end.

Definition RemoveWallet (walletAddress : WalletAddress) (userID : UserID)
    (wt : WalletTracker) : option error * WalletTracker :=
  let subs := subscribersOf wt walletAddress in
  let subscribers1 :=
    match firstIndex userID subs 0 with
    | Some i => <[walletAddress := take i subs ++ drop (S i) subs]> (subscribers wt)
    | None => subscribers wt
    end in
  if Nat.eqb (length (default [] (subscribers1 !! walletAddress))) 0 then
    match listeners wt !! walletAddress with
    | Some cancel =>
        (None, {| listeners := delete walletAddress (listeners wt);
                  subscribers := delete walletAddress subscribers1;
                  nextCtx := nextCtx wt;
                  effects := effects wt ++ [Cancel cancel] |})
    | None =>
        (None, {| listeners := listeners wt; subscribers := subscribers1;
                  nextCtx := nextCtx wt; effects := effects wt |})
    end
  else
    (None, {| listeners := listeners wt; subscribers := subscribers1;
              nextCtx := nextCtx wt; effects := effects wt |}).

(** [stopAllListeners]: every recorded cancel function is called (Go ranges
    over the map in no fixed order; the enumeration of the finite map is
    one such order) and both maps are replaced by empty ones. *)
Definition stopAllListeners (wt : WalletTracker) : WalletTracker :=
  {| listeners := ∅; subscribers := ∅; nextCtx := nextCtx wt;
     effects := effects wt ++ map (fun kv => Cancel (snd kv)) (map_to_list (listeners wt)) |}.

(** [handleTransaction]: the notification handed to
    [publisher.PublishNotification], if the publisher is called at all.
    [now] is the value of [time.Now()].  The composite literal sets four
    of the five fields; [Transfers] keeps its zero value, the nil slice. *)
Definition handleTransaction (now : Time) (walletAddress : WalletAddress)
    (tx : Transaction) (wt : WalletTracker) : option WalletNotification :=
  let subs := subscribersOf wt walletAddress in
  if Nat.eqb (length subs) 0 then None
  else Some {| NWalletAddress := walletAddress;
               NTransaction := tx;
               NTransfers := [];
               NSubscribers := subs;
               NTimestamp := now |}.

(** [CommandHandler.HandleCommand]: the error of the operation, if one was
    run, and the new state. *)
Definition HandleCommand (cmd : Command) (wt : WalletTracker) : option error * WalletTracker :=
  if String.eqb (CType cmd) AddWalletCommand then
    AddWallet (CWalletAddress cmd) (CUserID cmd) wt
  else if String.eqb (CType cmd) RemoveWalletCommand then
    RemoveWallet (CWalletAddress cmd) (CUserID cmd) wt
  else (None, wt).

(** The operations that change the manager's maps. *)
Inductive Op :=
| OpAdd (walletAddress : WalletAddress) (userID : UserID)
| OpRemove (walletAddress : WalletAddress) (userID : UserID)
| OpShutdown.

Definition step (wt : WalletTracker) (op : Op) : WalletTracker :=
  match op with
  | OpAdd a u => snd (AddWallet a u wt)
  | OpRemove a u => snd (RemoveWallet a u wt)
  | OpShutdown => stopAllListeners wt
  end.

(** The state after a history of operations on a new tracker. *)
Definition run (ops : list Op) : WalletTracker := fold_left step ops NewWalletTracker.

(** The commands of a channel handled one after the other ([HandleCommand]
    runs its operation under the manager lock, so concurrent handlers act
    in some such order). *)
Definition runCommands (cmds : list Command) : WalletTracker :=
  fold_left (fun wt cmd => snd (HandleCommand cmd wt)) cmds NewWalletTracker.

End Usecase.

(** ** The blockchain client: involvement, extraction, token symbols *)

Module Blockchain.
Import Domain.

(** *** go-ethereum values

    [common.Hash] (32 bytes) and [common.Address] (20 bytes) are kept as the
    unsigned integers their bytes spell, most significant byte first; byte
    slices are lists of bytes. *)
Definition common_Hash := Z.
Definition common_Address := Z.

Definition byteZ (b : Byte.byte) : Z := Z.of_N (Byte.to_N b).

(** [new(big.Int).SetBytes(buf)]: the bytes read as one big-endian number. *)
Definition SetBytes (buf : list Byte.byte) : Z :=
  fold_left (fun acc b => acc * 256 + byteZ b) buf 0.

(** [encoding/hex]: the value of a hexadecimal digit of either case. *)
Definition fromHexChar (c : ascii) : option N :=
  let n := N_of_ascii c in
  if (48 <=? n)%N && (n <=? 57)%N then Some (n - 48)%N
  else if (97 <=? n)%N && (n <=? 102)%N then Some (n - 87)%N
  else if (65 <=? n)%N && (n <=? 70)%N then Some (n - 55)%N
  else None.

Definition mkByte (hi lo : N) : Byte.byte :=
  default Byte.x00 (Byte.of_N (hi * 16 + lo)).

(** [common.Hex2Bytes]: [hex.DecodeString] with its error dropped, which
    leaves the bytes decoded before the first bad digit. *)
Fixpoint Hex2Bytes (s : string) : list Byte.byte :=
  match s with
  | String p (String q rest) =>
      match fromHexChar p, fromHexChar q with
      | Some a, Some b => mkByte a b :: Hex2Bytes rest
      | _, _ => []
      end
  | _ => []
  end.

Definition has0xPrefix (s : string) : bool :=
  match s with
  | String c0 (String c1 _) =>
      Ascii.eqb c0 "0" && (Ascii.eqb c1 "x" || Ascii.eqb c1 "X")
  | _ => false
  end.

(** [common.FromHex]: an optional [0x] is dropped and an odd number of
    digits is padded with a leading zero digit. *)
Definition FromHex (s : string) : list Byte.byte :=
  let s1 := if has0xPrefix s then String.substring 2 (String.length s - 2) s else s in
  let s2 := if Nat.odd (String.length s1) then String "0" s1 else s1 in
  Hex2Bytes s2.

(** [common.BytesToAddress]: the last twenty bytes, right aligned. *)
Definition BytesToAddress (b : list Byte.byte) : common_Address :=
  SetBytes (drop (length b - 20) b).

Definition HexToAddress (s : string) : common_Address := BytesToAddress (FromHex s).

Definition hexDigit (n : Z) : ascii :=
  nth (Z.to_nat n) (list_ascii_of_string "0123456789abcdef") "0"%char.

(** The [width] low hexadecimal digits of [v], most significant first. *)
Fixpoint hexDigits (width : nat) (v : Z) : string :=
  match width with
  | O => EmptyString
  | S w => String (hexDigit (Z.land (Z.shiftr v (4 * Z.of_nat w)) 15)) (hexDigits w v)
  end.

(** [common.Hash.Hex]: [0x] and sixty-four lower-case digits. *)
Definition HashHex (h : common_Hash) : string := String.append "0x" (hexDigits 64 h).

(** The digits of an address without the letter casing of its checksum. *)
Definition addressDigits (a : common_Address) : string := String.append "0x" (hexDigits 40 a).

(** What the client takes from outside this repository.
    - [AddressHex] is [common.Address.Hex], the forty digits of the address
      with the letter casing of the EIP-55 checksum (a Keccak-256 of the
      digits decides the case of each letter).
    - [abiParses] tells whether [NewERC20Helper] succeeds in parsing the ABI
      constant.
    - [symbolCall n a] is the outcome of [helper.GetTokenSymbol] on contract
      [a] when [n] such calls were made before it: the symbol, or [None] for
      an error of packing, of the contract call or of unpacking. *)
Record External := mkExternal {
  AddressHex : common_Address -> string;
  abiParses : bool;
  symbolCall : nat -> common_Address -> option string
}.

(** [types.Transaction] as the client reads it.  [txSender] is the result of
    [types.Sender(types.NewEIP155Signer(pc.chainID), tx)], [None] when the
    recovery returns an error; [txTo] is [tx.To()], [None] for nil. *)
Record EthTransaction := mkEthTransaction {
  txHash : common_Hash;
  txSender : option common_Address;
  txTo : option common_Address;
  txValue : Z;
  txGasPrice : Z
}.

Record Log := mkLog {
  logAddress : common_Address;
  Topics : list common_Hash;
  Data : list Byte.byte
}.

Record Receipt := mkReceipt {
  Logs : list Log;
  rBlockNumber : Z;
  rGasUsed : Z
}.

(** The mutable part of [PlasmaClient]: the token cache, and the symbol
    calls issued so far, oldest first. *)
Record PlasmaClient := mkPlasmaClient {
  tokenCache : gmap Z string;
  symbolCalls : list common_Address
}.

Definition NewPlasmaClient : PlasmaClient :=
  {| tokenCache := ∅; symbolCalls := [] |}.

Definition transferEventSignature : common_Hash :=
  0xddf252ad1be2c89b69c2b068fc378daa952ba7f163c4a11628f55a4df523b3ef.

Definition zeroAddressHex : string := "0x0000000000000000000000000000000000000000".

(** [common.HexToAddress(topic.Hex())]. *)
Definition topicAddress (topic : common_Hash) : common_Address := HexToAddress (HashHex topic).

(** [len(log.Topics) >= 3 && log.Topics[0] == transferEventSignature]. *)
Definition isTransferLog (log : Log) : bool :=
  (3 <=? length (Topics log))%nat && (nth 0 (Topics log) 0 =? transferEventSignature).

Definition addressEqOpt (o : option common_Address) (address : common_Address) : bool :=
  match o with
  | Some a => a =? address
  | None => false
  end.

(** The range loop of [isAddressInvolved] over [receipt.Logs]. *)
Fixpoint involvedInLogs (logs : list Log) (address : common_Address) : bool :=
  match logs with
  | [] => false
  | log :: rest =>
      if isTransferLog log then
        let from := topicAddress (nth 1 (Topics log) 0) in
        let to := topicAddress (nth 2 (Topics log) 0) in
        if (from =? address) || (to =? address) then true
        else involvedInLogs rest address
      else involvedInLogs rest address
  end.

Definition isAddressInvolved (tx : EthTransaction) (receipt : Receipt)
    (address : common_Address) : bool :=
  if addressEqOpt (txSender tx) address then true
  else if addressEqOpt (txTo tx) address then true
  else involvedInLogs (Logs receipt) address.

(** [tokenAddress.Hex()[:8]]. *)
Definition shortHex (E : External) (tokenAddress : common_Address) : string :=
  String.substring 0 8 (AddressHex E tokenAddress).

(** [helper.GetTokenSymbol]: one external call, recorded in the client. *)
Definition GetTokenSymbol (E : External) (tokenAddress : common_Address)
    (pc : PlasmaClient) : option string * PlasmaClient :=
  (symbolCall E (length (symbolCalls pc)) tokenAddress,
   {| tokenCache := tokenCache pc; symbolCalls := symbolCalls pc ++ [tokenAddress] |}).

(** [getTokenSymbol], for a caller that no other resolution interrupts:
    the cache read under the read lock, the table and the call outside any
    lock, and the cache write under the write lock follow one another.  The
    interleavings of several callers are built from the same pieces below
    ([startResolve], [advance]). *)
Definition getTokenSymbol (E : External) (tokenAddress : common_Address)
    (pc : PlasmaClient) : string * PlasmaClient :=
  match tokenCache pc !! tokenAddress with
  | Some symbol => (symbol, pc)
  | None =>
      if String.eqb (AddressHex E tokenAddress) zeroAddressHex then ("XPL", pc)
      else if String.eqb (AddressHex E tokenAddress)
                "0xa0b86a33e6ba0c74d75c9abfd35e5e0b1bcceb83" then ("WXPL", pc)
      else if negb (abiParses E) then (shortHex E tokenAddress, pc)
      else
        let '(result, pc1) := GetTokenSymbol E tokenAddress pc in
        let symbol :=
          match result with
          | Some s => s
          | None => shortHex E tokenAddress
          end in
        (symbol, {| tokenCache := <[tokenAddress := symbol]> (tokenCache pc1);
                    symbolCalls := symbolCalls pc1 |})
  end.

Definition toHex (E : External) (to : option common_Address) : string :=
  match to with
  | Some a => AddressHex E a
  | None => EmptyString
  end.

(** The first block of [extractAllTransfers]: the native transfer, when the
    transaction carries a value above zero.  A sender that cannot be
    recovered is the zero address. *)
Definition nativeTransfers (E : External) (tx : EthTransaction) : list Transfer :=
  if 0 <? txValue tx then
    [ {| TxHash := HashHex (txHash tx);
         From := AddressHex E (default 0 (txSender tx));
         To := toHex E (txTo tx);
         Value := txValue tx;
         TokenSymbol := "XPL";
         TokenAddress := zeroAddressHex;
         LogIndex := -1 |} ]
  else [].

(** The second block: [for i, log := range receipt.Logs], with the index
    [i] of the log at the head of [logs], the transfers appended so far and
    the client state. *)
Fixpoint logTransfers (E : External) (tx : EthTransaction) (i : nat)
    (logs : list Log) (transfers : list Transfer) (pc : PlasmaClient)
    : list Transfer * PlasmaClient :=
  match logs with
  | [] => (transfers, pc)
  | log :: rest =>
      if isTransferLog log then
        let from := topicAddress (nth 1 (Topics log) 0) in
        let to := topicAddress (nth 2 (Topics log) 0) in
        let value := SetBytes (Data log) in
        let '(tokenSymbol, pc1) := getTokenSymbol E (logAddress log) pc in
        let transfer :=
          {| TxHash := HashHex (txHash tx);
             From := AddressHex E from;
             To := AddressHex E to;
             Value := value;
             TokenSymbol := tokenSymbol;
             TokenAddress := AddressHex E (logAddress log);
             LogIndex := Z.of_nat i |} in
        logTransfers E tx (S i) rest (transfers ++ [transfer]) pc1
      else logTransfers E tx (S i) rest transfers pc
  end.

Definition extractAllTransfers (E : External) (tx : EthTransaction)
    (receipt : Receipt) (pc : PlasmaClient) : list Transfer * PlasmaClient :=
  logTransfers E tx 0 (Logs receipt) (nativeTransfers E tx) pc.

Definition touches (address : common_Address) (transfer : Transfer) : bool :=
  (HexToAddress (From transfer) =? address) || (HexToAddress (To transfer) =? address).

(** [filterTransfersForAddress]: the range loop appends the transfers that
    touch [address]. *)
Definition filterTransfersForAddress (transfers : list Transfer)
    (address : common_Address) : list Transfer :=
  fold_left
    (fun relevantTransfers transfer =>
       if touches address transfer then relevantTransfers ++ [transfer]
       else relevantTransfers)
    transfers [].

Definition createDomainTransaction (E : External) (tx : EthTransaction)
    (receipt : Receipt) (blockTime : Z) (pc : PlasmaClient)
    : Transaction * PlasmaClient :=
  let '(transfers, pc1) := extractAllTransfers E tx receipt pc in
  ({| Hash := HashHex (txHash tx);
      TxFrom := AddressHex E (default 0 (txSender tx));
      TxTo := toHex E (txTo tx);
      BlockNumber := rBlockNumber receipt;
      TxTimestamp := blockTime;
      GasUsed := rGasUsed receipt;
      GasPrice := txGasPrice tx;
      Transfers := transfers |}, pc1).

(** The body of the transaction loop of [processBlockForAddress] once the
    receipt is fetched: the transaction offered to the listener's channel. *)
Definition detectTransaction (E : External) (tx : EthTransaction)
    (receipt : Receipt) (blockTime : Z) (address : common_Address) (pc : PlasmaClient)
    : option Transaction * PlasmaClient :=
  if isAddressInvolved tx receipt address then
    let '(domainTx, pc1) := createDomainTransaction E tx receipt blockTime pc in
    let relevantTransfers := filterTransfersForAddress (Transfers domainTx) address in
    if (0 <? length relevantTransfers)%nat then
      (Some {| Hash := Hash domainTx; TxFrom := TxFrom domainTx; TxTo := TxTo domainTx;
               BlockNumber := BlockNumber domainTx; TxTimestamp := TxTimestamp domainTx;
               GasUsed := GasUsed domainTx; GasPrice := GasPrice domainTx;
               Transfers := relevantTransfers |}, pc1)
    else (None, pc1)
  else (None, pc).

(** An instance of the outside for closed examples: addresses print as
    their plain digits (the checksum changes letters only, so this is
    [common.Address.Hex] on every address whose digits are all decimal), the
    ABI constant parses, and every symbol call fails. *)
Definition failingNode : External :=
  {| AddressHex := addressDigits; abiParses := true; symbolCall := fun _ _ => None |}.

(** *** The helpers of [erc20.go] *)

(** [IsERC20Transfer]: a first topic, equal to the event signature. *)
Definition IsERC20Transfer (log : Log) : bool :=
  (0 <? length (Topics log))%nat && (nth 0 (Topics log) 0 =? transferEventSignature).

(** [ParseTransferEvent]: the error, or sender, recipient and value. *)
Definition ParseTransferEvent (log : Log)
    : string + (common_Address * common_Address * Z) :=
  if (length (Topics log) <? 3)%nat then inl "invalid transfer event"
  else inr (topicAddress (nth 1 (Topics log) 0),
            topicAddress (nth 2 (Topics log) 0),
            SetBytes (Data log)).

(** *** Scanning a block *)

(** The buffer of the channel made by [SubscribeToAddress],
    [make(chan domain.Transaction, 100)]. *)
Definition chanCap : nat := 100.

(** The [select] of [processBlockForAddress] while the context is live and
    nothing is received meanwhile: the send goes through when the buffer
    has room, and the [default] branch drops the transaction otherwise. *)
Definition offer (txChan : list Transaction) (domainTx : Transaction) : list Transaction :=
  if (length txChan <? chanCap)%nat then txChan ++ [domainTx] else txChan.

(** The loop of [processBlockForAddress] over the transactions of a block,
    each with the outcome of its receipt fetch ([None] for an error). *)
Fixpoint scanTransactions (E : External)
    (txs : list (EthTransaction * option Receipt)) (blockTime : Z)
    (address : common_Address) (pc : PlasmaClient) (txChan : list Transaction)
    : list Transaction * PlasmaClient :=
  match txs with
  | [] => (txChan, pc)
  | (tx, None) :: rest => scanTransactions E rest blockTime address pc txChan
  | (tx, Some receipt) :: rest =>
      let '(detected, pc1) := detectTransaction E tx receipt blockTime address pc in
      let txChan1 :=
        match detected with
        | Some domainTx => offer txChan domainTx
        | None => txChan
        end in
      scanTransactions E rest blockTime address pc1 txChan1
  end.

(** [processBlockForAddress]; [block] is the outcome of [BlockByHash], the
    transactions with their receipts and the block time, or [None]. *)
Definition processBlockForAddress (E : External)
    (block : option (list (EthTransaction * option Receipt) * Z))
    (address : common_Address) (pc : PlasmaClient) (txChan : list Transaction)
    : list Transaction * PlasmaClient :=
  match block with
  | None => (txChan, pc)
  | Some (txs, blockTime) => scanTransactions E txs blockTime address pc txChan
  end.

(** *** Queries by transaction hash *)

(** [common.BytesToHash] and [common.HexToHash]: the last thirty-two bytes. *)
Definition BytesToHash (b : list Byte.byte) : common_Hash :=
  SetBytes (drop (length b - 32) b).

Definition HexToHash (s : string) : common_Hash := BytesToHash (FromHex s).

(** The node behind [rpcClient], as the queries use it; an error is its
    message.  [TransactionByHash] gives the transaction and whether it is
    pending, [TransactionReceipt] the receipt with its [BlockHash],
    [BlockByHash] the time of the block, [BlockByNumber] the number of the
    latest block. *)
Record Node := mkNode {
  TransactionByHash : common_Hash -> string + (EthTransaction * bool);
  TransactionReceipt : common_Hash -> string + (Receipt * common_Hash);
  BlockByHash : common_Hash -> string + Z;
  BlockByNumber : string + Z
}.

Definition GetTransaction (E : External) (node : Node) (hash : TransactionHash)
    (pc : PlasmaClient) : (string + Transaction) * PlasmaClient :=
  let txHash := HexToHash hash in
  match TransactionByHash node txHash with
  | inl err => (inl (String.append "failed to get transaction: " err), pc)
  | inr (tx, isPending) =>
      if isPending then (inl "transaction is pending", pc)
      else
        match TransactionReceipt node txHash with
        | inl err => (inl (String.append "failed to get transaction receipt: " err), pc)
        | inr (receipt, blockHash) =>
            match BlockByHash node blockHash with
            | inl err => (inl (String.append "failed to get block: " err), pc)
            | inr blockTime =>
                let '(domainTx, pc1) := createDomainTransaction E tx receipt blockTime pc in
                (inr domainTx, pc1)
            end
        end
  end.

Definition GetTransfersForAddress (E : External) (node : Node)
    (txHash : TransactionHash) (address : WalletAddress) (pc : PlasmaClient)
    : (string + list Transfer) * PlasmaClient :=
  match GetTransaction E node txHash pc with
  | (inl err, pc1) => (inl err, pc1)
  | (inr tx, pc1) =>
      let watchedAddr := HexToAddress address in
      (inr (filterTransfersForAddress (Transfers tx) watchedAddr), pc1)
  end.

Definition GetLatestBlock (node : Node) : string + Z :=
  match BlockByNumber node with
  | inl err => inl (String.append "failed to get latest block: " err)
  | inr number => inr number
  end.

(** [HealthCheck]: the error of [GetLatestBlock], if any. *)
Definition HealthCheck (node : Node) : option string :=
  match GetLatestBlock node with
  | inl err => Some err
  | inr _ => None
  end.

End Blockchain.

(** ** Specification vocabulary *)

Import Domain Usecase Blockchain.

(** An address is watched exactly when it has subscribers. *)
Definition consistent (wt : WalletTracker) : Prop :=
  ∀ a : WalletAddress, is_Some (listeners wt !! a) ↔ subscribersOf wt a ≠ [].

(** The list without the first entry equal to [u]. *)
Fixpoint removeFirst (u : UserID) (l : list UserID) : list UserID :=
  match l with
  | [] => []
  | x :: rest => if Z.eqb x u then rest else x :: removeFirst u rest
  end.

(** The number of entries of [l] equal to [u]. *)
Definition occurrences (u : UserID) (l : list UserID) : nat :=
  length (List.filter (Z.eqb u) l).

(** The bytes of a payload as a big-endian number, digit by digit. *)
Fixpoint bigEndian (buf : list Byte.byte) : Z :=
  match buf with
  | [] => 0
  | b :: rest => byteZ b * 256 ^ Z.of_nat (length rest) + bigEndian rest
  end.

(** The [w]-th hexadecimal digit of [v], counted from the least significant. *)
Definition nibble (v : Z) (w : nat) : Z := Z.land (Z.shiftr v (4 * Z.of_nat w)) 15.

(** The [k] low bytes of [v], most significant first. *)
Fixpoint lowBytes (k : nat) (v : Z) : list Byte.byte :=
  match k with
  | O => []
  | S k' => mkByte (Z.to_N (nibble v (S (2 * k')))) (Z.to_N (nibble v (2 * k'))) :: lowBytes k' v
  end.

(** The logs of a receipt with their positions, those of the transfer-event
    shape only, in receipt order. *)
Definition transferLogs (logs : list Log) : list (nat * Log) :=
  List.filter (fun il => isTransferLog (snd il)) (combine (seq 0 (length logs)) logs).

(** A log of the transfer-event shape: at least three topics, the first of
    them the event signature. *)
Definition transferShape (log : Log) (t1 t2 : common_Hash) : Prop :=
  ∃ rest, Topics log = transferEventSignature :: t1 :: t2 :: rest.

(** [t] is the token transfer of the log [il.2] at position [il.1]: the log
    has the transfer-event shape, and [t] carries its position, the
    addresses in its second and third topics (the number in the last twenty
    bytes of each, as [common.Address.Hex] prints it), and its data as a
    number. *)
Definition tokenTransferOf (E : External) (tx : EthTransaction)
    (il : nat * Log) (t : Transfer) : Prop :=
  ∃ t1 t2,
    transferShape (snd il) t1 t2 ∧
    LogIndex t = Z.of_nat (fst il) ∧
    From t = AddressHex E (t1 mod 2 ^ 160) ∧
    To t = AddressHex E (t2 mod 2 ^ 160) ∧
    Value t = bigEndian (Data (snd il)) ∧
    TokenAddress t = AddressHex E (logAddress (snd il)) ∧
    TxHash t = HashHex (txHash tx).

(** *** Concrete inputs

    Every address below has decimal digits only, so that its checksummed
    form is its plain form. *)
Definition walletW : WalletAddress := "0x1111111111111111111111111111111111111111".

Definition paymentTx : EthTransaction :=
  {| txHash := 0x77;
     txSender := Some 0x1111111111111111111111111111111111111111;
     txTo := Some 0x2222222222222222222222222222222222222222;
     txValue := 5;
     txGasPrice := 1 |}.

Definition paymentReceipt : Receipt :=
  {| Logs := []; rBlockNumber := 10; rGasUsed := 21000 |}.

Definition tokenT : common_Address := 0x3333333333333333333333333333333333333333.

(** A token transfer of 100 units from [0x11..] to [0x22..], emitted by
    the contract [tokenT] in a transaction without value. *)
Definition tokenLog : Log :=
  {| logAddress := tokenT;
     Topics := [ transferEventSignature;
                 0x1111111111111111111111111111111111111111;
                 0x2222222222222222222222222222222222222222 ];
     Data := repeat Byte.x00 31 ++ [Byte.x64] |}.

Definition tokenTx : EthTransaction :=
  {| txHash := 0x78;
     txSender := Some 0x1111111111111111111111111111111111111111;
     txTo := Some tokenT;
     txValue := 0;
     txGasPrice := 1 |}.

Definition tokenReceipt : Receipt :=
  {| Logs := [tokenLog]; rBlockNumber := 11; rGasUsed := 50000 |}.

(** A node whose first symbol call fails and whose later ones answer. *)
Definition recoveringNode : External :=
  {| AddressHex := addressDigits;
     abiParses := true;
     symbolCall := fun n _ => match n with O => None | S _ => Some "USDT" end |}.

(** *** Vocabulary of the further properties *)

(** The number of subscriptions of [u] to [a] that a history leaves open:
    an addition opens one, a removal closes one if one is open, a shutdown
    closes all. *)
Definition balance (a : WalletAddress) (u : UserID) (ops : list Op) : nat :=
  fold_left
    (fun n op =>
       match op with
       | OpAdd a' u' => if String.eqb a' a && Z.eqb u' u then S n else n
       | OpRemove a' u' => if String.eqb a' a && Z.eqb u' u then Nat.pred n else n
       | OpShutdown => 0%nat
       end)
    ops 0%nat.

(** The life of the listener contexts, read off the effects: a recorded
    cancel function belongs to a context started for that address and not
    cancelled; a started context is recorded or cancelled; only started
    contexts are cancelled; a context is started for one address; and no
    effect happens twice. *)
Definition lifecycle (wt : WalletTracker) : Prop :=
  (∀ a c, listeners wt !! a = Some c →
     StartListener c a ∈ effects wt ∧ Cancel c ∉ effects wt) ∧
  (∀ c a, StartListener c a ∈ effects wt →
     (c < nextCtx wt)%nat ∧ (listeners wt !! a = Some c ∨ Cancel c ∈ effects wt)) ∧
  (∀ c, Cancel c ∈ effects wt →
     (c < nextCtx wt)%nat ∧ ∃ a, StartListener c a ∈ effects wt) ∧
  (∀ c a b, StartListener c a ∈ effects wt → StartListener c b ∈ effects wt → a = b) ∧
  NoDup (effects wt).

(** The operation a command stands for; [None] for an unknown type. *)
Definition commandOp (cmd : Command) : option Op :=
  if String.eqb (CType cmd) AddWalletCommand then
    Some (OpAdd (CWalletAddress cmd) (CUserID cmd))
  else if String.eqb (CType cmd) RemoveWalletCommand then
    Some (OpRemove (CWalletAddress cmd) (CUserID cmd))
  else None.

Definition walletV : WalletAddress := "0x2222222222222222222222222222222222222222".

(** A twenty-byte address. *)
Definition validAddress (a : common_Address) : Prop := 0 ≤ a < 2 ^ 160.

(** The contracts of the built-in table of [getTokenSymbol]. *)
Definition builtin (E : External) (a : common_Address) : bool :=
  String.eqb (AddressHex E a) zeroAddressHex ||
  String.eqb (AddressHex E a) "0xa0b86a33e6ba0c74d75c9abfd35e5e0b1bcceb83".

(** The client after resolving the symbols of [addrs] in turn. *)
Definition resolveMany (E : External) (addrs : list common_Address)
    (pc : PlasmaClient) : PlasmaClient :=
  fold_left (fun pc a => snd (getTokenSymbol E a pc)) addrs pc.

(** What the resolutions keep true of a client: every contract called is
    cached, no contract was called twice, and no cached contract is in the
    built-in table. *)
Definition cacheInv (E : External) (pc : PlasmaClient) : Prop :=
  (∀ a, a ∈ symbolCalls pc → is_Some (tokenCache pc !! a)) ∧
  NoDup (symbolCalls pc) ∧
  (∀ a, is_Some (tokenCache pc !! a) → builtin E a = false).

(** A contract is settled on the symbol [s] in a client: it is cached with
    [s], or it is not cached and resolves to [s] without a call and without
    a cache write in every client that has not cached it. *)
Definition settled (E : External) (a : common_Address) (s : string)
    (pc : PlasmaClient) : Prop :=
  tokenCache pc !! a = Some s ∨
  (tokenCache pc !! a = None ∧
   ∀ pc', tokenCache pc' !! a = None → getTokenSymbol E a pc' = (s, pc')).

(** *** Resolutions that overlap

    [getTokenSymbol] holds the lock of the cache twice, for the read at its
    start and for the write at its end, and not in between; listeners of
    different addresses share the client.  A resolution in flight is past
    its read: its symbol call is next, or its cache write. *)
Inductive InFlight :=
| AwaitCall (tokenAddress : common_Address)
| AwaitWrite (tokenAddress : common_Address) (symbol : string).

Definition flightAddress (f : InFlight) : common_Address :=
  match f with
  | AwaitCall a => a
  | AwaitWrite a _ => a
  end.

(** The client, the resolutions in flight and, oldest first, the symbols
    that resolutions have returned. *)
Record Shared := mkShared {
  client : PlasmaClient;
  inFlight : list InFlight;
  returned : list (common_Address * string)
}.

Definition idle (pc : PlasmaClient) : Shared :=
  {| client := pc; inFlight := []; returned := [] |}.

(** The start of a resolution: the cache read, and what follows it without
    a lock up to the symbol call.  The resolution returns at once on a hit,
    for a contract of the table and when the helper cannot be built. *)
Definition startResolve (E : External) (a : common_Address) (st : Shared) : Shared :=
  let answer symbol :=
    {| client := client st; inFlight := inFlight st;
       returned := returned st ++ [(a, symbol)] |} in
  match tokenCache (client st) !! a with
  | Some symbol => answer symbol
  | None =>
      if String.eqb (AddressHex E a) zeroAddressHex then answer "XPL"%string
      else if String.eqb (AddressHex E a)
                "0xa0b86a33e6ba0c74d75c9abfd35e5e0b1bcceb83" then answer "WXPL"%string
      else if negb (abiParses E) then answer (shortHex E a)
      else {| client := client st; inFlight := inFlight st ++ [AwaitCall a];
              returned := returned st |}
  end.

(** The next step of the [k]-th resolution in flight: its symbol call, or
    its cache write, after which it returns. *)
Definition advance (E : External) (k : nat) (st : Shared) : Shared :=
  match inFlight st !! k with
  | None => st
  | Some (AwaitCall a) =>
      let '(result, pc1) := GetTokenSymbol E a (client st) in
      let symbol :=
        match result with
        | Some s => s
        | None => shortHex E a
        end in
      {| client := pc1; inFlight := <[k := AwaitWrite a symbol]> (inFlight st);
         returned := returned st |}
  | Some (AwaitWrite a symbol) =>
      {| client := {| tokenCache := <[a := symbol]> (tokenCache (client st));
                      symbolCalls := symbolCalls (client st) |};
         inFlight := delete k (inFlight st);
         returned := returned st ++ [(a, symbol)] |}
  end.

Inductive Event :=
| Start (a : common_Address)
| Advance (k : nat).

Definition event (E : External) (st : Shared) (ev : Event) : Shared :=
  match ev with
  | Start a => startResolve E a st
  | Advance k => advance E k st
  end.

Definition runSchedule (E : External) (evs : list Event) (st : Shared) : Shared :=
  fold_left (event E) evs st.

(** The schedule in which the contracts are resolved in turn, each
    resolution running to its end before the next starts. *)
Definition inTurn (addrs : list common_Address) : list Event :=
  flat_map (fun a => [Start a; Advance 0; Advance 0]) addrs.

(** The schedule in which two resolutions of one contract overlap: both
    read the cache, both call, and the first writes before the second. *)
Definition overlapping (a : common_Address) : list Event :=
  [Start a; Start a; Advance 0; Advance 1; Advance 0; Advance 0].

(** The symbol that the [n]-th symbol call gives a resolution of [a]. *)
Definition calledSymbol (E : External) (n : nat) (a : common_Address) : string :=
  match symbolCall E n a with
  | Some s => s
  | None => shortHex E a
  end.

(** What every interleaving keeps true of the native asset's address: it is
    not cached, not called and not in flight, and every resolution of it
    has returned [XPL]. *)
Definition nativeUntouched (E : External) (st : Shared) : Prop :=
  (∀ a, AddressHex E a = zeroAddressHex →
     tokenCache (client st) !! a = None ∧
     (a ∉ symbolCalls (client st)) ∧
     (a ∉ map flightAddress (inFlight st))) ∧
  (∀ a s, (a, s) ∈ returned st → AddressHex E a = zeroAddressHex → s = "XPL"%string).

(** A node that answers every query of [GetTransaction] for the payment. *)
Definition paymentNode : Node :=
  {| TransactionByHash := fun _ => inr (paymentTx, false);
     TransactionReceipt := fun _ => inr (paymentReceipt, 0x99);
     BlockByHash := fun _ => inr 1000;
     BlockByNumber := inr 10 |}.

(** A node on which the payment is still pending. *)
Definition pendingNode : Node :=
  {| TransactionByHash := fun _ => inr (paymentTx, true);
     TransactionReceipt := fun _ => inr (paymentReceipt, 0x99);
     BlockByHash := fun _ => inr 1000;
     BlockByNumber := inr 10 |}.

(** ** The wallet listener manager: proofs *)

Section Manager.

Implicit Types (wt : WalletTracker) (a : WalletAddress) (u : UserID).

Lemma firstIndex_None u l i : firstIndex u l i = None ↔ u ∉ l.
Proof.
  revert i; induction l as [|x l IH]; intros i; simpl.
  - split; [intros _; apply not_elem_of_nil | done].
  - destruct (Z.eqb_spec x u) as [->|Hne].
    + split; [done | intros H; exfalso; apply H; left].
    + rewrite IH, not_elem_of_cons. split; [intros H; split; [congruence | exact H] | intros [_ H]; exact H].
Qed.

Lemma firstIndex_removeFirst u l i k :
  firstIndex u l i = Some k →
  ∃ j, k = (i + j)%nat ∧ l !! j = Some u ∧ (u ∉ take j l) ∧
       take j l ++ drop (S j) l = removeFirst u l.
Proof.
  revert i; induction l as [|x l IH]; intros i; simpl; [done|].
  destruct (Z.eqb_spec x u) as [->|Hne].
  - intros [= <-]. exists 0%nat. repeat split; [lia | apply not_elem_of_nil].
  - intros H. destruct (IH _ H) as (j & -> & Hj & Hnot & Heq).
    exists (S j). repeat split; [lia | done | | ].
    + simpl. rewrite not_elem_of_cons. done.
    + simpl. by rewrite Heq.
Qed.

Lemma removeFirst_absent u l : u ∉ l → removeFirst u l = l.
Proof.
  induction l as [|x l IH]; simpl; [done|].
  rewrite not_elem_of_cons. intros [Hne Hnot].
  destruct (Z.eqb_spec x u); [congruence | by rewrite IH].
Qed.

Lemma removeFirst_app_absent u l l' :
  u ∉ l → removeFirst u (l ++ l') = l ++ removeFirst u l'.
Proof.
  induction l as [|x l IH]; simpl; [done|].
  rewrite not_elem_of_cons. intros [Hne Hnot].
  destruct (Z.eqb_spec x u); [congruence | by rewrite IH].
Qed.

Lemma occurrences_app u l l' :
  occurrences u (l ++ l') = (occurrences u l + occurrences u l')%nat.
Proof. unfold occurrences. by rewrite List.filter_app, length_app. Qed.

Lemma occurrences_absent u l : u ∉ l → occurrences u l = 0%nat.
Proof.
  unfold occurrences. induction l as [|x l IH]; simpl; [done|].
  rewrite not_elem_of_cons. intros [Hne Hnot].
  destruct (Z.eqb_spec u x); [congruence | by apply IH].
Qed.

Lemma occurrences_removeFirst u l :
  u ∈ l → S (occurrences u (removeFirst u l)) = occurrences u l.
Proof.
  unfold occurrences. induction l as [|x l IH]; simpl.
  - intros H. by apply elem_of_nil in H.
  - intros H. destruct (Z.eqb_spec x u) as [->|Hne].
    + by rewrite Z.eqb_refl.
    + apply elem_of_cons in H as [->|H]; [done|].
      simpl. destruct (Z.eqb_spec u x); [congruence | by apply IH].
Qed.

(** *** What the operations do to one address *)

Lemma AddWallet_subscribers_eq a u wt :
  subscribersOf (AddWallet a u wt).2 a = subscribersOf wt a ++ [u].
Proof.
  unfold AddWallet, subscribersOf.
  destruct (listeners wt !! a); simpl; by rewrite lookup_insert_eq.
Qed.

Lemma AddWallet_subscribers_ne a b u wt :
  a ≠ b → subscribersOf (AddWallet a u wt).2 b = subscribersOf wt b.
Proof.
  intros Hne. unfold AddWallet, subscribersOf.
  destruct (listeners wt !! a); simpl; by rewrite lookup_insert_ne.
Qed.

Lemma AddWallet_listeners_eq a u wt : is_Some (listeners (AddWallet a u wt).2 !! a).
Proof.
  unfold AddWallet. destruct (listeners wt !! a) as [c|] eqn:Hl; simpl.
  - rewrite Hl. by exists c.
  - rewrite lookup_insert_eq. by eexists.
Qed.

Lemma AddWallet_listeners_ne a b u wt :
  a ≠ b → listeners (AddWallet a u wt).2 !! b = listeners wt !! b.
Proof.
  intros Hne. unfold AddWallet.
  destruct (listeners wt !! a); simpl; [done | by rewrite lookup_insert_ne].
Qed.

Lemma RemoveWallet_subscribers_eq a u wt :
  subscribersOf (RemoveWallet a u wt).2 a = removeFirst u (subscribersOf wt a).
Proof.
  unfold RemoveWallet.
  destruct (firstIndex u (subscribersOf wt a) 0) as [k|] eqn:Hfi.
  - destruct (firstIndex_removeFirst _ _ _ _ Hfi) as (j & -> & _ & _ & Heq).
    simpl. rewrite lookup_insert_eq. simpl. rewrite Heq.
    destruct (removeFirst u (subscribersOf wt a)) as [|x r] eqn:Hr; simpl.
    + destruct (listeners wt !! a); unfold subscribersOf at 1; simpl.
      * by rewrite lookup_delete_eq.
      * by rewrite lookup_insert_eq.
    + unfold subscribersOf at 1; simpl. by rewrite lookup_insert_eq.
  - apply firstIndex_None in Hfi. rewrite (removeFirst_absent _ _ Hfi).
    fold (subscribersOf wt a).
    destruct (subscribersOf wt a) as [|x r] eqn:Hs; simpl.
    + destruct (listeners wt !! a); unfold subscribersOf at 1; simpl.
      * by rewrite lookup_delete_eq.
      * exact Hs.
    + unfold subscribersOf at 1; simpl. exact Hs.
Qed.

Lemma RemoveWallet_subscribers_ne a b u wt :
  a ≠ b → subscribersOf (RemoveWallet a u wt).2 b = subscribersOf wt b.
Proof.
  intros Hne. unfold RemoveWallet.
  destruct (firstIndex u (subscribersOf wt a) 0) as [k|];
    destruct (Nat.eqb _ 0); try destruct (listeners wt !! a);
    unfold subscribersOf at 1; simpl;
    rewrite ?lookup_delete_ne, ?lookup_insert_ne by done; done.
Qed.

Lemma RemoveWallet_listeners_eq a u wt :
  listeners (RemoveWallet a u wt).2 !! a =
    match removeFirst u (subscribersOf wt a) with
    | [] => None
    | _ :: _ => listeners wt !! a
    end.
Proof.
  unfold RemoveWallet.
  destruct (firstIndex u (subscribersOf wt a) 0) as [k|] eqn:Hfi.
  - destruct (firstIndex_removeFirst _ _ _ _ Hfi) as (j & -> & _ & _ & Heq).
    simpl. rewrite lookup_insert_eq. simpl. rewrite Heq.
    destruct (removeFirst u (subscribersOf wt a)) as [|x r]; simpl; [|done].
    destruct (listeners wt !! a) eqn:Hl; simpl; [by rewrite lookup_delete_eq | done].
  - apply firstIndex_None in Hfi. rewrite (removeFirst_absent _ _ Hfi).
    fold (subscribersOf wt a).
    destruct (subscribersOf wt a) as [|x r]; simpl; [|done].
    destruct (listeners wt !! a) eqn:Hl; simpl; [by rewrite lookup_delete_eq | done].
Qed.

Lemma RemoveWallet_listeners_ne a b u wt :
  a ≠ b → listeners (RemoveWallet a u wt).2 !! b = listeners wt !! b.
Proof.
  intros Hne. unfold RemoveWallet.
  destruct (firstIndex u (subscribersOf wt a) 0) as [k|];
    destruct (Nat.eqb _ 0); try destruct (listeners wt !! a);
    simpl; rewrite ?lookup_delete_ne by done; done.
Qed.

(** *** Transitions between not watched and watching *)

Lemma AddWallet_starts_listener a u wt :
  listeners wt !! a = None →
  listeners (AddWallet a u wt).2 !! a = Some (nextCtx wt) ∧
  effects (AddWallet a u wt).2 = effects wt ++ [StartListener (nextCtx wt) a].
Proof.
  intros Hl. unfold AddWallet. rewrite Hl. simpl. by rewrite lookup_insert_eq.
Qed.

Lemma AddWallet_keeps_listener a u wt c :
  listeners wt !! a = Some c →
  listeners (AddWallet a u wt).2 = listeners wt ∧
  effects (AddWallet a u wt).2 = effects wt.
Proof. intros Hl. unfold AddWallet. by rewrite Hl. Qed.

Lemma RemoveWallet_last_subscriber a u wt c :
  subscribersOf wt a = [u] → listeners wt !! a = Some c →
  listeners (RemoveWallet a u wt).2 !! a = None ∧
  subscribers (RemoveWallet a u wt).2 !! a = None ∧
  effects (RemoveWallet a u wt).2 = effects wt ++ [Cancel c].
Proof.
  intros Hs Hl. unfold RemoveWallet. rewrite Hs. cbn [firstIndex].
  rewrite Z.eqb_refl, lookup_insert_eq, Hl. simpl.
  by rewrite !lookup_delete_eq.
Qed.

(** *** The invariant *)

Lemma consistent_new : consistent NewWalletTracker.
Proof.
  intros a. unfold subscribersOf; simpl. rewrite !lookup_empty. simpl.
  split; [intros [? [=]] | done].
Qed.

Lemma consistent_AddWallet a u wt : consistent wt → consistent (AddWallet a u wt).2.
Proof.
  intros Hc b. destruct (decide (a = b)) as [<-|Hne].
  - rewrite AddWallet_subscribers_eq. split.
    + intros _ Heq. by apply app_eq_nil in Heq as [_ [=]].
    + intros _. apply AddWallet_listeners_eq.
  - rewrite AddWallet_subscribers_ne, AddWallet_listeners_ne by done. apply Hc.
Qed.

Lemma consistent_RemoveWallet a u wt : consistent wt → consistent (RemoveWallet a u wt).2.
Proof.
  intros Hc b. destruct (decide (a = b)) as [<-|Hne].
  - rewrite RemoveWallet_subscribers_eq, RemoveWallet_listeners_eq.
    destruct (removeFirst u (subscribersOf wt a)) as [|x r] eqn:Hr.
    + split; [intros [? [=]] | done].
    + split; [done | intros _]. apply Hc. intros Hnil. by rewrite Hnil in Hr.
  - rewrite RemoveWallet_subscribers_ne, RemoveWallet_listeners_ne by done. apply Hc.
Qed.

Lemma consistent_stopAllListeners wt : consistent (stopAllListeners wt).
Proof.
  intros a. unfold subscribersOf; simpl. rewrite !lookup_empty. simpl.
  split; [intros [? [=]] | done].
Qed.

Lemma consistent_step wt op : consistent wt → consistent (step wt op).
Proof.
  destruct op; simpl; auto using consistent_AddWallet, consistent_RemoveWallet,
    consistent_stopAllListeners.
Qed.

Lemma consistent_run ops : consistent (run ops).
Proof.
  unfold run. induction ops as [|op ops IH] using rev_ind.
  - apply consistent_new.
  - rewrite fold_left_app. simpl. by apply consistent_step.
Qed.

(** A removal that finds nothing to remove, in a consistent state, changes
    nothing at all. *)
Lemma RemoveWallet_absent a u wt :
  consistent wt → u ∉ subscribersOf wt a → RemoveWallet a u wt = (None, wt).
Proof.
  intros Hc Hnot. unfold RemoveWallet.
  rewrite (proj2 (firstIndex_None u _ 0%nat) Hnot).
  fold (subscribersOf wt a).
  destruct (subscribersOf wt a) as [|x r] eqn:Hs; simpl.
  - destruct (listeners wt !! a) as [c|] eqn:Hl.
    + exfalso. assert (is_Some (listeners wt !! a)) as H by (by exists c).
      apply Hc in H. by apply H.
    + by destruct wt.
  - by destruct wt.
Qed.

End Manager.

(** *** Claims about the manager *)

(** C6. Starting from the empty tracker, after any history of [AddWallet],
    [RemoveWallet] and shutdown operations, an address has a recorded cancel
    function exactly when its subscriber list is not empty. *)
Theorem watching_iff_subscribed (ops : list Op) (a : WalletAddress) :
  is_Some (listeners (run ops) !! a) ↔ subscribersOf (run ops) a ≠ [].
Proof. apply consistent_run. Qed.

(** C7. Two [AddWallet a u] in a row append [u] twice, with no
    deduplication; one [RemoveWallet a u] after them removes the first entry
    equal to [u] and no other, so one more [u] is left than there was at the
    start, and the address keeps its listener.  When [u] was not subscribed
    before, the list holds [u] twice after the additions and once after the
    removal. *)
Theorem add_twice_remove_once (a : WalletAddress) (u : UserID) (wt : WalletTracker) :
  let wt2 := (AddWallet a u (AddWallet a u wt).2).2 in
  let wt3 := (RemoveWallet a u wt2).2 in
  subscribersOf wt2 a = subscribersOf wt a ++ [u; u] ∧
  subscribersOf wt3 a = removeFirst u (subscribersOf wt2 a) ∧
  occurrences u (subscribersOf wt3 a) = S (occurrences u (subscribersOf wt a)) ∧
  is_Some (listeners wt3 !! a) ∧
  ((u ∉ subscribersOf wt a) →
     occurrences u (subscribersOf wt2 a) = 2%nat ∧
     subscribersOf wt3 a = subscribersOf wt a ++ [u] ∧
     occurrences u (subscribersOf wt3 a) = 1%nat).
Proof.
  intros wt2 wt3.
  assert (subscribersOf wt2 a = subscribersOf wt a ++ [u; u]) as H2.
  { unfold wt2. rewrite !AddWallet_subscribers_eq, <- app_assoc. done. }
  assert (subscribersOf wt3 a = removeFirst u (subscribersOf wt2 a)) as H3.
  { apply RemoveWallet_subscribers_eq. }
  assert (u ∈ subscribersOf wt2 a) as Hin.
  { rewrite H2. apply elem_of_app. right. left. }
  assert (occurrences u [u; u] = 2%nat) as Huu.
  { unfold occurrences. simpl. by rewrite Z.eqb_refl. }
  assert (occurrences u (subscribersOf wt3 a) = S (occurrences u (subscribersOf wt a))) as Hocc.
  { pose proof (occurrences_removeFirst u _ Hin) as H.
    rewrite <- H3, H2, occurrences_app, Huu in H. lia. }
  split; [exact H2|]. split; [exact H3|]. split; [exact Hocc|]. split.
  - unfold wt3. rewrite RemoveWallet_listeners_eq. fold wt3. rewrite <- H3.
    destruct (subscribersOf wt3 a) eqn:Hs.
    + discriminate Hocc.
    + apply AddWallet_listeners_eq.
  - intros Hnot. pose proof (occurrences_absent u _ Hnot) as H0.
    split; [| split].
    + rewrite H2, occurrences_app, Huu, H0. done.
    + rewrite H3, H2, removeFirst_app_absent by done. simpl. by rewrite Z.eqb_refl.
    + rewrite Hocc, H0. done.
Qed.

Lemma add_twice_remove_once_witness :
  (1 ∉ subscribersOf NewWalletTracker walletW) ∧
  subscribersOf
    (RemoveWallet walletW 1
       (AddWallet walletW 1 (AddWallet walletW 1 NewWalletTracker).2).2).2 walletW = [1].
Proof.
  assert (1 ∉ subscribersOf NewWalletTracker walletW) as H by apply not_elem_of_nil.
  split; [exact H|].
  exact (proj1 (proj2 (proj2 (proj2 (proj2 (proj2
    (add_twice_remove_once walletW 1 NewWalletTracker)))) H))).
Defined.

(** C8. In a state reached from the empty tracker, [RemoveWallet] for an
    address without subscribers, or for a user who is not in the address's
    subscriber list, returns nil and leaves the tracker as it was: the
    subscriber map, the listener map, and no cancel function is called. *)
Theorem RemoveWallet_noop (ops : list Op) (a : WalletAddress) (u : UserID) :
  subscribersOf (run ops) a = [] ∨ (u ∉ subscribersOf (run ops) a) →
  RemoveWallet a u (run ops) = (None, run ops).
Proof.
  intros H. apply RemoveWallet_absent; [apply consistent_run|].
  destruct H as [-> | H]; [apply not_elem_of_nil | exact H].
Qed.

Lemma RemoveWallet_noop_witness :
  (subscribersOf (run []) walletW = [] ∧
   RemoveWallet walletW 2 (run []) = (None, run [])) ∧
  ((2 ∉ subscribersOf (run [OpAdd walletW 1]) walletW) ∧
   RemoveWallet walletW 2 (run [OpAdd walletW 1]) = (None, run [OpAdd walletW 1])).
Proof.
  split.
  - split; [reflexivity|]. apply (RemoveWallet_noop [] walletW 2). left. reflexivity.
  - assert (2 ∉ subscribersOf (run [OpAdd walletW 1]) walletW) as H.
    { change (2 ∉ [1]). intros Hin. apply list_elem_of_singleton in Hin. discriminate. }
    split; [exact H|]. apply (RemoveWallet_noop [OpAdd walletW 1] walletW 2). right. exact H.
Defined.

(** C9. [handleTransaction] calls the publisher exactly when the snapshot of
    the address's subscriber list is not empty, and the notification it
    publishes carries that snapshot, which is then not empty. *)
Theorem handleTransaction_publishes_iff (now : Time) (a : WalletAddress)
    (tx : Transaction) (wt : WalletTracker) :
  (is_Some (handleTransaction now a tx wt) ↔ subscribersOf wt a ≠ []) ∧
  (∀ n, handleTransaction now a tx wt = Some n →
        NSubscribers n = subscribersOf wt a ∧ NSubscribers n ≠ []).
Proof.
  unfold handleTransaction.
  destruct (subscribersOf wt a) as [|x r]; simpl.
  - split; [split; [intros [? [=]] | done] | intros n [=]].
  - split; [split; [done | by eexists] | intros n [= <-]; done].
Qed.

Lemma handleTransaction_publishes_iff_witness :
  ∃ n, handleTransaction 0 walletW
         (mkTransaction "" "" "" 0 0 0 0 []) (run [OpAdd walletW 1]) = Some n ∧
       NSubscribers n = [1].
Proof.
  eexists. split; [reflexivity|].
  exact (proj1 (proj2 (handleTransaction_publishes_iff 0 walletW
    (mkTransaction "" "" "" 0 0 0 0 []) (run [OpAdd walletW 1])) _ eq_refl)).
Defined.

(** C10. [AddWallet] and [RemoveWallet] return nil for every wallet-address
    string, user and tracker state: the address is not validated, and no
    error, [ErrInvalidAddress] among them, is returned by either. *)
Theorem AddWallet_RemoveWallet_return_nil (a : WalletAddress) (u : UserID)
    (wt : WalletTracker) :
  (AddWallet a u wt).1 = None ∧ (RemoveWallet a u wt).1 = None ∧
  (AddWallet a u wt).1 ≠ Some ErrInvalidAddress ∧
  (RemoveWallet a u wt).1 ≠ Some ErrInvalidAddress.
Proof.
  assert ((AddWallet a u wt).1 = None) as HA.
  { unfold AddWallet. by destruct (listeners wt !! a). }
  assert ((RemoveWallet a u wt).1 = None) as HR.
  { unfold RemoveWallet.
    destruct (firstIndex u (subscribersOf wt a) 0); destruct (Nat.eqb _ 0);
      try destruct (listeners wt !! a); done. }
  rewrite HA, HR. done.
Qed.

(** ** The blockchain client: proofs *)

(** *** Bytes and hexadecimal digits *)

Section Hex.

Lemma SetBytes_from (buf : list Byte.byte) (acc : Z) :
  fold_left (fun acc b => acc * 256 + byteZ b) buf acc =
    acc * 256 ^ Z.of_nat (length buf) + bigEndian buf.
Proof.
  revert acc; induction buf as [|b buf IH]; intros acc; simpl fold_left.
  - simpl. lia.
  - rewrite IH. cbn [bigEndian length]. rewrite Nat2Z.inj_succ, Z.pow_succ_r by lia. ring.
Qed.

Lemma SetBytes_bigEndian (buf : list Byte.byte) : SetBytes buf = bigEndian buf.
Proof. unfold SetBytes. rewrite SetBytes_from. lia. Qed.

Lemma byteZ_range (b : Byte.byte) : 0 ≤ byteZ b < 256.
Proof. unfold byteZ. pose proof (Byte.to_N_bounded b). lia. Qed.

Lemma bigEndian_nonneg (buf : list Byte.byte) : 0 ≤ bigEndian buf.
Proof.
  induction buf as [|b buf IH]; simpl; [lia|].
  pose proof (byteZ_range b). pose proof (Z.pow_nonneg 256 (Z.of_nat (length buf))). nia.
Qed.

Lemma nibble_range (v : Z) (w : nat) : 0 ≤ nibble v w < 16.
Proof.
  unfold nibble. change 15 with (Z.ones 4). rewrite Z.land_ones by lia.
  apply Z.mod_pos_bound. lia.
Qed.

Lemma fromHexChar_hexDigit (n : Z) :
  0 ≤ n < 16 → fromHexChar (hexDigit n) = Some (Z.to_N n).
Proof.
  intros Hn.
  assert (n = 0 ∨ n = 1 ∨ n = 2 ∨ n = 3 ∨ n = 4 ∨ n = 5 ∨ n = 6 ∨ n = 7 ∨
          n = 8 ∨ n = 9 ∨ n = 10 ∨ n = 11 ∨ n = 12 ∨ n = 13 ∨ n = 14 ∨ n = 15) as H by lia.
  repeat (destruct H as [-> | H]; [reflexivity|]). subst n. reflexivity.
Qed.

Lemma length_hexDigits (w : nat) (v : Z) : String.length (hexDigits w v) = w.
Proof. induction w as [|w IH]; simpl; [done | by rewrite IH]. Qed.

Lemma Hex2Bytes_hexDigits (k : nat) (v : Z) :
  Hex2Bytes (hexDigits (2 * k) v) = lowBytes k v.
Proof.
  induction k as [|k IH]; [done|].
  replace (2 * S k)%nat with (S (S (2 * k))) by lia.
  cbn [hexDigits Hex2Bytes lowBytes]. fold (nibble v (S (2 * k))). fold (nibble v (2 * k)).
  rewrite !fromHexChar_hexDigit by apply nibble_range. by rewrite IH.
Qed.

Lemma length_lowBytes (k : nat) (v : Z) : length (lowBytes k v) = k.
Proof. induction k as [|k IH]; simpl; [done | by rewrite IH]. Qed.

Lemma drop_lowBytes (j k : nat) (v : Z) : drop j (lowBytes (j + k) v) = lowBytes k v.
Proof. induction j as [|j IH]; [done | exact IH]. Qed.

Lemma byteZ_mkByte (hi lo : Z) :
  0 ≤ hi < 16 → 0 ≤ lo < 16 → byteZ (mkByte (Z.to_N hi) (Z.to_N lo)) = hi * 16 + lo.
Proof.
  intros Hhi Hlo. unfold byteZ, mkByte.
  destruct (Byte.of_N (Z.to_N hi * 16 + Z.to_N lo)) as [b|] eqn:Hb; simpl.
  - apply Byte.to_of_N in Hb. rewrite Hb. lia.
  - apply Byte.of_N_None_iff in Hb. lia.
Qed.

Lemma byte_of_nibbles (v : Z) (k : nat) :
  nibble v (S (2 * k)) * 16 + nibble v (2 * k) = (v / 2 ^ (8 * Z.of_nat k)) mod 256.
Proof.
  unfold nibble. change 15 with (Z.ones 4). rewrite !Z.land_ones, !Z.shiftr_div_pow2 by lia.
  replace (4 * Z.of_nat (S (2 * k))) with (8 * Z.of_nat k + 4) by lia.
  replace (4 * Z.of_nat (2 * k)) with (8 * Z.of_nat k) by lia.
  rewrite Z.pow_add_r by lia.
  set (q := v / 2 ^ (8 * Z.of_nat k)).
  rewrite <- Z.div_div by (try apply Z.pow_pos_nonneg; lia). fold q.
  change 256 with (2 ^ 4 * 2 ^ 4). rewrite Z.rem_mul_r by lia. lia.
Qed.

Lemma bigEndian_lowBytes (k : nat) (v : Z) :
  bigEndian (lowBytes k v) = v mod 2 ^ (8 * Z.of_nat k).
Proof.
  induction k as [|k IH].
  - simpl. by rewrite Z.mod_1_r.
  - cbn [lowBytes bigEndian]. rewrite length_lowBytes, IH.
    rewrite byteZ_mkByte by apply nibble_range. rewrite byte_of_nibbles.
    replace (8 * Z.of_nat (S k)) with (8 * Z.of_nat k + 8) by lia.
    rewrite Z.pow_add_r by lia. change (2 ^ 8) with 256.
    replace (256 ^ Z.of_nat k) with (2 ^ (8 * Z.of_nat k)).
    2:{ change 256 with (2 ^ 8). rewrite <- Z.pow_mul_r by lia. done. }
    rewrite Z.rem_mul_r by (try apply Z.pow_nonzero; lia). lia.
Qed.

Lemma substring_all (s : string) : String.substring 0 (String.length s) s = s.
Proof. induction s as [|c s IH]; simpl; [done | by rewrite IH]. Qed.

(** X21. [common.HexToAddress(topic.Hex())], the expression by which the
    involvement filter, the extraction and [ParseTransferEvent] read an
    address from a topic, gives the number in the last twenty bytes of the
    topic, whatever the first twelve hold. *)
Lemma topicAddress_low (topic : common_Hash) : topicAddress topic = topic mod 2 ^ 160.
Proof.
  unfold topicAddress, HexToAddress, FromHex, HashHex.
  pose proof (length_hexDigits 64 topic) as Hlen.
  pose proof (Hex2Bytes_hexDigits 32 topic) as Hdec.
  change (2 * 32)%nat with 64%nat in Hdec.
  set (digits := hexDigits 64 topic) in *.
  change (String.append "0x" digits) with (String "0" (String "x" digits)).
  cbn [has0xPrefix Ascii.eqb Bool.eqb andb orb String.length String.substring Nat.sub].
  rewrite Nat.sub_0_r, substring_all, Hlen.
  change (Nat.odd 64) with false. cbv iota. rewrite Hdec.
  unfold BytesToAddress. rewrite length_lowBytes.
  change (32 - 20)%nat with 12%nat.
  rewrite (drop_lowBytes 12 20), SetBytes_bigEndian, bigEndian_lowBytes. done.
Qed.

(** The same fact, for use in the proofs below. *)
Lemma topicAddress_mod (topic : common_Hash) : topicAddress topic = topic mod 2 ^ 160.
Proof.
  unfold topicAddress, HexToAddress, FromHex, HashHex.
  pose proof (length_hexDigits 64 topic) as Hlen.
  pose proof (Hex2Bytes_hexDigits 32 topic) as Hdec.
  change (2 * 32)%nat with 64%nat in Hdec.
  set (digits := hexDigits 64 topic) in *.
  change (String.append "0x" digits) with (String "0" (String "x" digits)).
  cbn [has0xPrefix Ascii.eqb Bool.eqb andb orb String.length String.substring Nat.sub].
  rewrite Nat.sub_0_r, substring_all, Hlen.
  change (Nat.odd 64) with false. cbv iota. rewrite Hdec.
  unfold BytesToAddress. rewrite length_lowBytes.
  change (32 - 20)%nat with 12%nat.
  rewrite (drop_lowBytes 12 20), SetBytes_bigEndian, bigEndian_lowBytes. done.
Qed.

Lemma bigEndian_bound (buf : list Byte.byte) :
  0 ≤ bigEndian buf < 256 ^ Z.of_nat (length buf).
Proof.
  induction buf as [|b buf IH]; cbn [bigEndian length]; [simpl; lia|].
  pose proof (byteZ_range b). rewrite Nat2Z.inj_succ, Z.pow_succ_r by lia.
  pose proof (Z.pow_pos_nonneg 256 (Z.of_nat (length buf))). nia.
Qed.

Lemma SetBytes_bound (buf : list Byte.byte) (n : nat) :
  (length buf ≤ n)%nat → 0 ≤ SetBytes buf < 256 ^ Z.of_nat n.
Proof.
  intros Hlen. rewrite SetBytes_bigEndian. pose proof (bigEndian_bound buf) as [H0 H1].
  split; [done|]. eapply Z.lt_le_trans; [exact H1|].
  apply Z.pow_le_mono_r; lia.
Qed.

Lemma BytesToAddress_valid (b : list Byte.byte) : validAddress (BytesToAddress b).
Proof.
  unfold validAddress, BytesToAddress. change (2 ^ 160) with (256 ^ Z.of_nat 20).
  apply SetBytes_bound. rewrite length_drop. lia.
Qed.

Lemma HexToAddress_range (s : string) : validAddress (HexToAddress s).
Proof. apply BytesToAddress_valid. Qed.

(** The plain digits of an address read back as the address. *)
Lemma HexToAddress_addressDigits (a : common_Address) :
  HexToAddress (addressDigits a) = a mod 2 ^ 160.
Proof.
  unfold HexToAddress, FromHex, addressDigits.
  pose proof (length_hexDigits 40 a) as Hlen.
  pose proof (Hex2Bytes_hexDigits 20 a) as Hdec.
  change (2 * 20)%nat with 40%nat in Hdec.
  set (digits := hexDigits 40 a) in *.
  change (String.append "0x" digits) with (String "0" (String "x" digits)).
  cbn [has0xPrefix Ascii.eqb Bool.eqb andb orb String.length String.substring Nat.sub].
  rewrite Nat.sub_0_r, substring_all, Hlen.
  change (Nat.odd 40) with false. cbv iota. rewrite Hdec.
  unfold BytesToAddress. rewrite length_lowBytes.
  rewrite Nat.sub_diag, drop_0, SetBytes_bigEndian, bigEndian_lowBytes. done.
Qed.

Lemma SetBytes_leading_zero (buf : list Byte.byte) :
  SetBytes (Byte.x00 :: buf) = SetBytes buf.
Proof. rewrite !SetBytes_bigEndian. cbn [bigEndian]. change (byteZ Byte.x00) with 0. lia. Qed.

Lemma HexToAddress_empty : HexToAddress EmptyString = 0.
Proof. reflexivity. Qed.

Lemma topicAddress_valid (topic : common_Hash) : validAddress (topicAddress topic).
Proof. apply HexToAddress_range. Qed.

End Hex.

#[local] Opaque topicAddress HashHex HexToAddress.
#[local] Arguments topicAddress : simpl never.
#[local] Arguments HashHex : simpl never.
#[local] Arguments transferEventSignature : simpl never.
#[local] Arguments isTransferLog : simpl never.
#[local] Arguments getTokenSymbol : simpl never.
#[local] Arguments SetBytes : simpl never.

Section Client.

Variable E : External.
Variable tx : EthTransaction.

(** The shape test, on the list of topics. *)
Lemma isTransferLog_topics (log : Log) :
  isTransferLog log = true ↔ ∃ t1 t2, transferShape log t1 t2.
Proof.
  unfold isTransferLog, transferShape. rewrite andb_true_iff, Nat.leb_le, Z.eqb_eq. split.
  - intros [Hlen H0].
    destruct (Topics log) as [|t0 [|t1 [|t2 rest]]]; cbn [length nth] in *; try lia.
    subst t0. by exists t1, t2, rest.
  - intros (t1 & t2 & rest & ->). cbn [length nth]. split; [lia | done].
Qed.

(** *** The involvement filter *)

Lemma addressEqOpt_true (o : option common_Address) (address : common_Address) :
  addressEqOpt o address = true ↔ o = Some address.
Proof.
  destruct o as [a|]; simpl; [|done].
  rewrite Z.eqb_eq. split; [by intros -> | by intros [= ->]].
Qed.

Lemma involvedInLogs_true (logs : list Log) (address : common_Address) :
  involvedInLogs logs address = true ↔
    ∃ log, log ∈ logs ∧ isTransferLog log = true ∧
           (topicAddress (nth 1 (Topics log) 0) = address ∨
            topicAddress (nth 2 (Topics log) 0) = address).
Proof.
  induction logs as [|log logs IH]; cbn [involvedInLogs].
  - split; [done | intros (log & Hin & _); by apply elem_of_nil in Hin].
  - destruct (isTransferLog log) eqn:Hshape.
    + destruct (_ || _) eqn:Hhit.
      * split; [intros _ | done]. exists log. split; [left|]. split; [done|].
        apply orb_true_iff in Hhit. rewrite !Z.eqb_eq in Hhit. exact Hhit.
      * rewrite IH. apply orb_false_iff in Hhit as [H1 H2].
        apply Z.eqb_neq in H1, H2. split.
        -- intros (l & Hin & Hl). exists l. split; [by right | done].
        -- intros (l & Hin & Hs & Hl). apply elem_of_cons in Hin as [->|Hin].
           ++ destruct Hl as [Hl|Hl]; [destruct (H1 Hl) | destruct (H2 Hl)].
           ++ by exists l.
    + rewrite IH. split.
      * intros (l & Hin & Hl). exists l. split; [by right | done].
      * intros (l & Hin & Hs & Hl). apply elem_of_cons in Hin as [->|Hin].
        -- congruence.
        -- by exists l.
Qed.

(** *** Transfer extraction *)

Lemma logTransfers_spec (logs : list Log) :
  ∀ (i : nat) (transfers : list Transfer) (pc : PlasmaClient),
  ∃ tokens,
    (logTransfers E tx i logs transfers pc).1 = transfers ++ tokens ∧
    Forall2 (fun t il => tokenTransferOf E tx il t) tokens
      (List.filter (fun il => isTransferLog (snd il))
         (combine (seq i (length logs)) logs)).
Proof.
  induction logs as [|log logs IH]; intros i transfers pc;
    cbn [logTransfers length seq combine List.filter snd].
  - exists []. split; [by rewrite app_nil_r | constructor].
  - destruct (isTransferLog log) eqn:Hshape.
    + destruct (getTokenSymbol E (logAddress log) pc) as [tokenSymbol pc1].
      match goal with |- context [transfers ++ [?t]] => set (transfer := t) end.
      destruct (IH (S i) (transfers ++ [transfer]) pc1) as (tokens & Heq & Hall).
      exists (transfer :: tokens). split.
      * rewrite Heq, <- app_assoc. done.
      * constructor; [|exact Hall].
        apply isTransferLog_topics in Hshape as (t1 & t2 & rest & Htop).
        exists t1, t2. split; [by exists rest|].
        unfold transfer; cbn [LogIndex From To Value TokenAddress TxHash fst snd].
        rewrite Htop, SetBytes_bigEndian. cbn [nth]. by rewrite !topicAddress_mod.
    + apply IH.
Qed.

Lemma tokenTransferOf_index (il : nat * Log) (t : Transfer) :
  tokenTransferOf E tx il t → 0 ≤ LogIndex t.
Proof. intros (t1 & t2 & _ & -> & _). lia. Qed.

End Client.

(** *** Positions of the transfer logs *)

Section Positions.

Context {A : Type} (P : nat * A → bool).

Lemma indexed_elem (l : list A) (k i : nat) (x : A) :
  (i, x) ∈ combine (seq k (length l)) l ↔ (k ≤ i)%nat ∧ l !! (i - k)%nat = Some x.
Proof.
  revert k; induction l as [|y l IH]; intros k; cbn [length seq combine].
  - rewrite elem_of_nil. split; [done | intros [_ H]; by rewrite lookup_nil in H].
  - rewrite elem_of_cons, IH. split.
    + intros [[= -> ->] | [Hle Hl]].
      * rewrite Nat.sub_diag. split; [lia | done].
      * split; [lia|]. replace (i - k)%nat with (S (i - S k)) by lia. exact Hl.
    + intros [Hle Hl]. destruct (decide (i = k)) as [->|Hne].
      * rewrite Nat.sub_diag in Hl. injection Hl as ->. by left.
      * right. split; [lia|]. replace (i - k)%nat with (S (i - S k)) in Hl by lia. exact Hl.
Qed.

Lemma filtered_elem (l : list A) (i : nat) (x : A) :
  (i, x) ∈ List.filter P (combine (seq 0 (length l)) l) ↔
    l !! i = Some x ∧ P (i, x) = true.
Proof.
  rewrite list_elem_of_In, filter_In, <- list_elem_of_In, indexed_elem, Nat.sub_0_r.
  split; [intros [[_ H] HP]; done | intros [H HP]; split; [split; [lia | done] | done]].
Qed.

Lemma filtered_sorted (l : list A) (k : nat) :
  StronglySorted lt (map fst (List.filter P (combine (seq k (length l)) l))) ∧
  Forall (fun i => (k ≤ i)%nat) (map fst (List.filter P (combine (seq k (length l)) l))).
Proof.
  revert k; induction l as [|y l IH]; intros k; cbn [length seq combine List.filter].
  - split; constructor.
  - destruct (IH (S k)) as [Hs Hb].
    assert (Forall (fun i => (k < i)%nat)
              (map fst (List.filter P (combine (seq (S k) (length l)) l)))) as Hlt.
    { eapply Forall_impl; [exact Hb | intros i Hi; simpl in Hi; lia]. }
    destruct (P (k, y)); cbn [map fst].
    + split; constructor; [exact Hs | exact Hlt | lia |].
      eapply Forall_impl; [exact Hlt | intros i Hi; simpl in Hi; lia].
    + split; [exact Hs|]. eapply Forall_impl; [exact Hlt | intros i Hi; simpl in Hi; lia].
Qed.

End Positions.

Lemma transferLogs_elem (logs : list Log) (i : nat) (log : Log) :
  (i, log) ∈ transferLogs logs ↔ logs !! i = Some log ∧ isTransferLog log = true.
Proof. unfold transferLogs. by rewrite filtered_elem. Qed.

Lemma transferLogs_sorted (logs : list Log) :
  StronglySorted lt (map fst (transferLogs logs)).
Proof. unfold transferLogs. apply filtered_sorted. Qed.

Lemma sorted_injective (l : list nat) (i j : nat) (x : nat) :
  StronglySorted lt l → l !! i = Some x → l !! j = Some x → i = j.
Proof.
  intros Hs. revert i j. induction Hs as [|y l Hs IH Hall]; intros i j Hi Hj.
  - by rewrite lookup_nil in Hi.
  - rewrite Forall_forall in Hall.
    destruct i as [|i], j as [|j]; simpl in *.
    + done.
    + injection Hi as ->. apply list_elem_of_lookup_2 in Hj.
      apply Hall in Hj. lia.
    + injection Hj as ->. apply list_elem_of_lookup_2 in Hi.
      apply Hall in Hi. lia.
    + f_equal. by apply IH.
Qed.

Lemma indices_sorted (E : External) (tx : EthTransaction)
    (tokens : list Transfer) (L : list (nat * Log)) :
  Forall2 (fun t il => tokenTransferOf E tx il t) tokens L →
  StronglySorted lt (map fst L) →
  StronglySorted Z.lt (map LogIndex tokens).
Proof.
  intros Hall. induction Hall as [|t il ts ils Ht Hall IH]; intros Hs; [constructor|].
  cbn [map] in *. apply StronglySorted_inv in Hs as [Hs Hlt].
  constructor; [by apply IH|].
  clear IH Hs. induction Hall as [|t2 il2 ts2 ils2 Ht2 _ IH2]; [constructor|].
  cbn [map] in *. apply Forall_cons in Hlt as [Hlt1 Hlt2].
  constructor; [|by apply IH2].
  destruct Ht as (? & ? & _ & -> & _), Ht2 as (? & ? & _ & -> & _). lia.
Qed.

(** *** Claims about the client *)

(** C3. The token transfers of [extractAllTransfers] follow the native part
    and correspond one to one, in receipt order, to the receipt logs that
    have at least three topics with the transfer-event signature first:
    the transfer of the log at position [i] has [LogIndex] [i], as [From]
    and [To] the addresses in the last twenty bytes of the second and third
    topics, and as [Value] the big-endian unsigned number spelled by the
    log's data.  Each such log has
    exactly one transfer, every token transfer comes from such a log, and
    the positions grow along the list. *)
Theorem extractAllTransfers_token_transfers (E : External) (tx : EthTransaction)
    (receipt : Receipt) (pc : PlasmaClient) :
  ∃ tokens,
    (extractAllTransfers E tx receipt pc).1 = nativeTransfers E tx ++ tokens ∧
    Forall2 (fun t il => tokenTransferOf E tx il t) tokens (transferLogs (Logs receipt)) ∧
    (∀ i log t1 t2, Logs receipt !! i = Some log → transferShape log t1 t2 →
       ∃ k t, tokens !! k = Some t ∧
              LogIndex t = Z.of_nat i ∧
              From t = AddressHex E (t1 mod 2 ^ 160) ∧
              To t = AddressHex E (t2 mod 2 ^ 160) ∧
              Value t = bigEndian (Data log) ∧
              ∀ k' t', tokens !! k' = Some t' → LogIndex t' = Z.of_nat i → k' = k) ∧
    (∀ t, t ∈ tokens →
       ∃ i log, Logs receipt !! i = Some log ∧ tokenTransferOf E tx (i, log) t) ∧
    StronglySorted Z.lt (map LogIndex tokens).
Proof.
  destruct (logTransfers_spec E tx (Logs receipt) 0 (nativeTransfers E tx) pc)
    as (tokens & Heq & Hall).
  fold (transferLogs (Logs receipt)) in Hall.
  exists tokens. split; [exact Heq|]. split; [exact Hall|].
  pose proof (transferLogs_sorted (Logs receipt)) as Hsorted.
  split; [|split].
  - intros i log t1 t2 Hlog Hshape.
    assert ((i, log) ∈ transferLogs (Logs receipt)) as Hin.
    { apply transferLogs_elem. split; [exact Hlog|].
      apply isTransferLog_topics. by exists t1, t2. }
    apply list_elem_of_lookup in Hin as [k Hk].
    destruct (Forall2_lookup_r _ _ _ _ _ Hall Hk) as (t & Ht & HR).
    destruct HR as (u1 & u2 & [rest' Htop'] & Hidx & Hfrom & Hto & Hval & _).
    destruct Hshape as [rest Htop]. cbn [fst snd] in *.
    rewrite Htop in Htop'. injection Htop' as <- <- _.
    exists k, t. repeat (split; [done|]).
    intros k' t' Ht' Hidx'.
    destruct (Forall2_lookup_l _ _ _ _ _ Hall Ht') as (il' & Hil' & (? & ? & _ & Hidx'' & _)).
    apply (sorted_injective (map fst (transferLogs (Logs receipt))) k' k i Hsorted).
    + rewrite list_lookup_fmap, Hil'. simpl. f_equal. lia.
    + by rewrite list_lookup_fmap, Hk.
  - intros t Hin. apply list_elem_of_lookup in Hin as [k Hk].
    destruct (Forall2_lookup_l _ _ _ _ _ Hall Hk) as ([i log] & Hil & HR).
    apply list_elem_of_lookup_2, transferLogs_elem in Hil as [Hlog _].
    by exists i, log.
  - exact (indices_sorted E tx tokens _ Hall Hsorted).
Qed.

Lemma extractAllTransfers_token_transfers_witness :
  Logs tokenReceipt !! 0%nat = Some tokenLog ∧
  transferShape tokenLog 0x1111111111111111111111111111111111111111
                         0x2222222222222222222222222222222222222222 ∧
  ∃ t, t ∈ (extractAllTransfers failingNode tokenTx tokenReceipt NewPlasmaClient).1 ∧
       LogIndex t = 0 ∧ Value t = 100 ∧
       From t = "0x1111111111111111111111111111111111111111"%string ∧
       To t = "0x2222222222222222222222222222222222222222"%string ∧
       ∃ i log, Logs tokenReceipt !! i = Some log ∧
                tokenTransferOf failingNode tokenTx (i, log) t.
Proof.
  assert (Logs tokenReceipt !! 0%nat = Some tokenLog) as Hlog by reflexivity.
  assert (transferShape tokenLog 0x1111111111111111111111111111111111111111
                        0x2222222222222222222222222222222222222222) as Hshape
    by (exists []; reflexivity).
  split; [exact Hlog|]. split; [exact Hshape|].
  destruct (extractAllTransfers_token_transfers failingNode tokenTx tokenReceipt
              NewPlasmaClient) as (tokens & Heq & _ & Hevery & Honly & _).
  destruct (Hevery 0%nat tokenLog _ _ Hlog Hshape)
    as (k & t & Hk & Hidx & Hfrom & Hto & Hval & _).
  assert (t ∈ tokens) as Hin by (by apply list_elem_of_lookup_2 in Hk).
  exists t.
  split; [|split; [exact Hidx | split; [exact Hval | split; [exact Hfrom |
    split; [exact Hto | exact (Honly t Hin)]]]]].
  rewrite Heq. apply elem_of_app. right. exact Hin.
Defined.

(** C4. When the transaction's value is above zero, the result of
    [extractAllTransfers] starts with one native transfer, with [LogIndex]
    [-1], symbol [XPL] and the zero address as token address, and every
    transfer after it has a [LogIndex] of zero or more; when the value is
    zero (or not above zero), every transfer has a [LogIndex] of zero or
    more, so none is native. *)
Theorem extractAllTransfers_native (E : External) (tx : EthTransaction)
    (receipt : Receipt) (pc : PlasmaClient) :
  (0 < txValue tx →
     ∃ native tokens,
       (extractAllTransfers E tx receipt pc).1 = native :: tokens ∧
       LogIndex native = -1 ∧
       TokenSymbol native = "XPL" ∧
       TokenAddress native = zeroAddressHex ∧
       Value native = txValue tx ∧
       Forall (fun t => 0 ≤ LogIndex t) tokens) ∧
  (txValue tx ≤ 0 →
     Forall (fun t => 0 ≤ LogIndex t) (extractAllTransfers E tx receipt pc).1).
Proof.
  destruct (logTransfers_spec E tx (Logs receipt) 0 (nativeTransfers E tx) pc)
    as (tokens & Heq & Hall).
  fold (extractAllTransfers E tx receipt pc) in Heq.
  assert (Forall (fun t => 0 ≤ LogIndex t) tokens) as Htok.
  { clear Heq. induction Hall as [|t il ts ils Ht _ IH]; constructor; [|exact IH].
    by apply (tokenTransferOf_index E tx il). }
  rewrite Heq. unfold nativeTransfers. split; intros Hv.
  - apply Z.ltb_lt in Hv. rewrite Hv. eexists _, tokens. by repeat split.
  - apply Z.ltb_ge in Hv. rewrite Hv. exact Htok.
Qed.

Lemma extractAllTransfers_native_witness :
  (0 < txValue paymentTx ∧
   ∃ native tokens,
     (extractAllTransfers failingNode paymentTx paymentReceipt NewPlasmaClient).1
       = native :: tokens ∧
     LogIndex native = -1) ∧
  (txValue tokenTx ≤ 0 ∧
   Forall (fun t => 0 ≤ LogIndex t)
     (extractAllTransfers failingNode tokenTx tokenReceipt NewPlasmaClient).1).
Proof.
  assert (0 < txValue paymentTx) as Hv by reflexivity.
  assert (txValue tokenTx ≤ 0) as Hz by (intros H; discriminate H).
  split.
  - split; [exact Hv|].
    destruct (proj1 (extractAllTransfers_native failingNode paymentTx paymentReceipt
                       NewPlasmaClient) Hv)
      as (native & tokens & Heq & Hidx & _).
    exists native, tokens. split; [exact Heq | exact Hidx].
  - split; [exact Hz|].
    exact (proj2 (extractAllTransfers_native failingNode tokenTx tokenReceipt
                    NewPlasmaClient) Hz).
Defined.

(** C5. [isAddressInvolved] is true exactly when the address is the
    recovered sender of the transaction, or its direct recipient, or the
    address in the second or third topic of a receipt log that has at least
    three topics with the transfer-event signature first.  The address in a
    topic is the number in its last twenty bytes. *)
Theorem isAddressInvolved_iff (tx : EthTransaction) (receipt : Receipt)
    (address : common_Address) :
  isAddressInvolved tx receipt address = true ↔
    txSender tx = Some address ∨
    txTo tx = Some address ∨
    ∃ log t1 t2,
      log ∈ Logs receipt ∧
      transferShape log t1 t2 ∧
      (t1 mod 2 ^ 160 = address ∨ t2 mod 2 ^ 160 = address).
Proof.
  unfold isAddressInvolved.
  destruct (addressEqOpt (txSender tx) address) eqn:Hs.
  { apply addressEqOpt_true in Hs. split; [by left | done]. }
  destruct (addressEqOpt (txTo tx) address) eqn:Ht.
  { apply addressEqOpt_true in Ht. split; [by right; left | done]. }
  assert (txSender tx ≠ Some address) as Hs'.
  { intros H. apply addressEqOpt_true in H. congruence. }
  assert (txTo tx ≠ Some address) as Ht'.
  { intros H. apply addressEqOpt_true in H. congruence. }
  rewrite involvedInLogs_true. split.
  - intros (log & Hin & Hshape & Hhit). right; right.
    apply isTransferLog_topics in Hshape as (t1 & t2 & rest & Htop).
    rewrite Htop in Hhit. cbn [nth] in Hhit. rewrite !topicAddress_mod in Hhit.
    exists log, t1, t2.
    split; [exact Hin|]. split; [by exists rest | exact Hhit].
  - intros [H | [H | (log & t1 & t2 & Hin & [rest Htop] & Hhit)]]; [done | done |].
    exists log. split; [exact Hin|]. split.
    + apply isTransferLog_topics. by exists t1, t2, rest.
    + rewrite Htop. cbn [nth]. rewrite !topicAddress_mod. exact Hhit.
Qed.

(** *** Token symbol resolution *)

(** What [getTokenSymbol] does on a failed symbol call, for any contract
    that is neither cached nor in the built-in table: the short form of the
    address is returned, one call is recorded, and the short form is stored
    in the cache. *)
Lemma getTokenSymbol_failed_call (E : External) (a : common_Address) (pc : PlasmaClient) :
  tokenCache pc !! a = None →
  String.eqb (AddressHex E a) zeroAddressHex = false →
  String.eqb (AddressHex E a) "0xa0b86a33e6ba0c74d75c9abfd35e5e0b1bcceb83" = false →
  abiParses E = true →
  symbolCall E (length (symbolCalls pc)) a = None →
  getTokenSymbol E a pc =
    (shortHex E a,
     {| tokenCache := <[a := shortHex E a]> (tokenCache pc);
        symbolCalls := symbolCalls pc ++ [a] |}).
Proof.
  intros Hmiss Hz Hw Habi Hcall. unfold getTokenSymbol, GetTokenSymbol.
  rewrite Hmiss, Hz, Hw, Habi, Hcall. reflexivity.
Qed.

(** A cached symbol is returned without a call, whatever the node would
    answer. *)
Lemma getTokenSymbol_cached (E : External) (a : common_Address) (pc : PlasmaClient)
    (symbol : string) :
  tokenCache pc !! a = Some symbol → getTokenSymbol E a pc = (symbol, pc).
Proof. intros Hhit. unfold getTokenSymbol. by rewrite Hhit. Qed.

(** C2. At the contract [0x3333333333333333333333333333333333333333] with an
    empty cache and a node whose first symbol call fails and whose second
    would answer [USDT]: the first resolution returns the eight-character
    prefix [0x333333] after one call and stores it in the cache; the second
    resolution returns [0x333333] from the cache and makes no call. *)
Theorem failed_symbol_call_is_cached :
  let r1 := getTokenSymbol recoveringNode tokenT NewPlasmaClient in
  let r2 := getTokenSymbol recoveringNode tokenT r1.2 in
  symbolCall recoveringNode 0 tokenT = None ∧
  r1.1 = "0x333333" ∧
  symbolCalls r1.2 = [tokenT] ∧
  tokenCache r1.2 !! tokenT = Some "0x333333" ∧
  symbolCall recoveringNode 1 tokenT = Some "USDT" ∧
  r2.1 = "0x333333" ∧
  symbolCalls r2.2 = [tokenT].
Proof. vm_compute. repeat split; reflexivity. Qed.

(** *** Notification assembly *)

Lemma handleTransaction_transfers_nil (now : Time) (a : WalletAddress)
    (tx : Transaction) (wt : WalletTracker) (n : WalletNotification) :
  handleTransaction now a tx wt = Some n → NTransfers n = [] ∧ NTransaction n = tx.
Proof.
  unfold handleTransaction. destruct (Nat.eqb _ 0); [done|]. by intros [= <-].
Qed.

Lemma filterTransfers_filter (transfers : list Transfer) (address : common_Address) :
  filterTransfersForAddress transfers address = List.filter (touches address) transfers.
Proof.
  unfold filterTransfersForAddress.
  assert (∀ acc, fold_left
            (fun relevantTransfers transfer =>
               if touches address transfer then relevantTransfers ++ [transfer]
               else relevantTransfers) transfers acc
          = acc ++ List.filter (touches address) transfers) as H.
  { induction transfers as [|t ts IH]; intros acc; cbn [fold_left List.filter].
    - by rewrite app_nil_r.
    - rewrite IH. destruct (touches address t); [by rewrite <- app_assoc | done]. }
  apply H.
Qed.

(** C1. A payment of 5 from the watched wallet
    [0x1111111111111111111111111111111111111111], subscribed by user 7, is
    detected with its native transfer as the narrowed transfer list of the
    transaction; the notification published for it carries that transaction
    and the subscriber, and its own [Transfers] field is empty although the
    narrowed list is not. *)
Theorem notification_transfers_left_empty :
  ∃ tx n,
    (detectTransaction failingNode paymentTx paymentReceipt 1000
       (HexToAddress walletW) NewPlasmaClient).1 = Some tx ∧
    handleTransaction 2000 walletW tx (run [OpAdd walletW 7]) = Some n ∧
    NSubscribers n = [7] ∧
    filterTransfersForAddress (Transfers (NTransaction n)) (HexToAddress walletW)
      = Transfers tx ∧
    length (Transfers tx) = 1%nat ∧
    NTransfers n = [].
Proof.
  eexists _, _. split; [vm_compute; reflexivity|].
  split; [vm_compute; reflexivity|].
  vm_compute. repeat split; reflexivity.
Qed.

(** *** The scenarios of the specification *)

Example scenario_native_transfer :
  (extractAllTransfers failingNode paymentTx paymentReceipt NewPlasmaClient).1 =
    [ {| TxHash := "0x0000000000000000000000000000000000000000000000000000000000000077";
         From := "0x1111111111111111111111111111111111111111";
         To := "0x2222222222222222222222222222222222222222";
         Value := 5;
         TokenSymbol := "XPL";
         TokenAddress := "0x0000000000000000000000000000000000000000";
         LogIndex := -1 |} ].
Proof. vm_compute. reflexivity. Qed.

Example scenario_token_transfer :
  (extractAllTransfers failingNode tokenTx tokenReceipt NewPlasmaClient).1 =
    [ {| TxHash := "0x0000000000000000000000000000000000000000000000000000000000000078";
         From := "0x1111111111111111111111111111111111111111";
         To := "0x2222222222222222222222222222222222222222";
         Value := 100;
         TokenSymbol := "0x333333";
         TokenAddress := "0x3333333333333333333333333333333333333333";
         LogIndex := 0 |} ].
Proof. vm_compute. reflexivity. Qed.

Example scenario_add_add_remove :
  let wt := run [OpAdd walletW 1; OpAdd walletW 1; OpRemove walletW 1] in
  subscribersOf wt walletW = [1] ∧ listeners wt !! walletW = Some 0%nat ∧
  effects wt = [StartListener 0%nat walletW].
Proof. vm_compute. repeat split; reflexivity. Qed.

Example scenario_remove_last :
  let wt := run [OpAdd walletW 1; OpRemove walletW 1] in
  subscribers wt !! walletW = None ∧ listeners wt !! walletW = None ∧
  effects wt = [StartListener 0%nat walletW; Cancel 0%nat].
Proof. vm_compute. repeat split; reflexivity. Qed.

Example scenario_remove_unwatched :
  RemoveWallet walletW 2 NewWalletTracker = (None, NewWalletTracker).
Proof. vm_compute. reflexivity. Qed.

Example scenario_unknown_command (wt : WalletTracker) :
  HandleCommand (mkCommand "foo" walletW 1 0) wt = (None, wt).
Proof. reflexivity. Qed.

(** ** Further properties of the manager *)

Section ManagerMore.

Implicit Types (wt : WalletTracker) (a b : WalletAddress) (u v : UserID).

(** *** Counting subscriptions *)

Lemma occurrences_snoc u v l :
  occurrences u (l ++ [v]) =
    (if Z.eqb v u then S (occurrences u l) else occurrences u l).
Proof.
  rewrite occurrences_app. unfold occurrences at 2. cbn [List.filter].
  rewrite (Z.eqb_sym u v). destruct (Z.eqb v u); simpl; lia.
Qed.

Lemma occurrences_removeFirst_same u l :
  occurrences u (removeFirst u l) = Nat.pred (occurrences u l).
Proof.
  destruct (decide (u ∈ l)) as [Hin|Hnot].
  - by rewrite <- (occurrences_removeFirst u l Hin).
  - by rewrite (removeFirst_absent u l Hnot), (occurrences_absent u l Hnot).
Qed.

Lemma occurrences_removeFirst_other u v l :
  v ≠ u → occurrences u (removeFirst v l) = occurrences u l.
Proof.
  intros Hne. unfold occurrences. induction l as [|x l IH]; [done|].
  cbn [removeFirst]. destruct (Z.eqb_spec x v) as [->|Hx].
  - cbn [List.filter]. destruct (Z.eqb_spec u v); [congruence | done].
  - cbn [List.filter]. destruct (Z.eqb u x); simpl; by rewrite IH.
Qed.

Lemma balance_snoc a u ops op :
  balance a u (ops ++ [op]) =
    match op with
    | OpAdd a' u' =>
        if String.eqb a' a && Z.eqb u' u then S (balance a u ops) else balance a u ops
    | OpRemove a' u' =>
        if String.eqb a' a && Z.eqb u' u then Nat.pred (balance a u ops)
        else balance a u ops
    | OpShutdown => 0%nat
    end.
Proof. unfold balance. by rewrite fold_left_app. Qed.

Lemma run_snoc ops op : run (ops ++ [op]) = step (run ops) op.
Proof. unfold run. by rewrite fold_left_app. Qed.

End ManagerMore.

(** X1. After any history of operations, the subscriber list of an address
    holds a user as many times as the history leaves subscriptions of that
    user to that address open: additions count up, removals count down but
    not below zero, a shutdown resets to zero. *)
Theorem subscriptions_balance (ops : list Op) (a : WalletAddress) (u : UserID) :
  occurrences u (subscribersOf (run ops) a) = balance a u ops.
Proof.
  induction ops as [|op ops IH] using rev_ind; [reflexivity|].
  rewrite run_snoc, balance_snoc. destruct op as [a' u' | a' u' |]; cbn [step].
  - destruct (String.eqb_spec a' a) as [->|Hne]; cbn [andb].
    + rewrite AddWallet_subscribers_eq, occurrences_snoc, IH. done.
    + rewrite AddWallet_subscribers_ne by done. exact IH.
  - destruct (String.eqb_spec a' a) as [->|Hne]; cbn [andb].
    + rewrite RemoveWallet_subscribers_eq.
      destruct (Z.eqb_spec u' u) as [->|Hu].
      * by rewrite occurrences_removeFirst_same, IH.
      * by rewrite occurrences_removeFirst_other, IH.
    + rewrite RemoveWallet_subscribers_ne by done. exact IH.
  - reflexivity.
Qed.

(** *** The life of the listener contexts *)

Section Lifecycle.

Implicit Types (wt : WalletTracker) (a b : WalletAddress) (u v : UserID) (c : CancelFunc).

Lemma AddWallet_cases a u wt :
  (is_Some (listeners wt !! a) ∧
   listeners (AddWallet a u wt).2 = listeners wt ∧
   effects (AddWallet a u wt).2 = effects wt ∧
   nextCtx (AddWallet a u wt).2 = nextCtx wt) ∨
  (listeners wt !! a = None ∧
   listeners (AddWallet a u wt).2 = <[a := nextCtx wt]> (listeners wt) ∧
   effects (AddWallet a u wt).2 = effects wt ++ [StartListener (nextCtx wt) a] ∧
   nextCtx (AddWallet a u wt).2 = S (nextCtx wt)).
Proof.
  unfold AddWallet. destruct (listeners wt !! a) as [c|] eqn:Hl; [left | right]; simpl.
  - split; [by exists c | done].
  - done.
Qed.

Lemma RemoveWallet_cases a u wt :
  nextCtx (RemoveWallet a u wt).2 = nextCtx wt ∧
  ((listeners (RemoveWallet a u wt).2 = listeners wt ∧
    effects (RemoveWallet a u wt).2 = effects wt) ∨
   (∃ c, listeners wt !! a = Some c ∧
         listeners (RemoveWallet a u wt).2 = delete a (listeners wt) ∧
         effects (RemoveWallet a u wt).2 = effects wt ++ [Cancel c])).
Proof.
  unfold RemoveWallet.
  destruct (firstIndex u (subscribersOf wt a) 0); destruct (Nat.eqb _ 0);
    try destruct (listeners wt !! a) as [c|] eqn:Hl; simpl;
    (split; [done|]); try (by left); right; by exists c.
Qed.

Lemma map_fmap {A B} (f : A → B) (l : list A) : map f l = f <$> l.
Proof. induction l as [|x l IH]; [done | simpl; by rewrite IH]. Qed.

Lemma lifecycle_new : lifecycle NewWalletTracker.
Proof.
  unfold lifecycle; simpl. split; [|split; [|split; [|split]]].
  - intros a c H. by rewrite lookup_empty in H.
  - intros c a H. by apply elem_of_nil in H.
  - intros c H. by apply elem_of_nil in H.
  - intros c a b H. by apply elem_of_nil in H.
  - constructor.
Qed.

Lemma lifecycle_AddWallet a u wt : lifecycle wt → lifecycle (AddWallet a u wt).2.
Proof.
  intros (H1 & H2 & H3 & H4 & H5). unfold lifecycle.
  destruct (AddWallet_cases a u wt) as [(_ & -> & -> & ->) | (Hl & -> & -> & ->)];
    [done|].
  set (c0 := nextCtx wt).
  assert (∀ x, StartListener c0 x ∉ effects wt) as Hfresh.
  { intros x Hin. apply H2 in Hin as [Hlt _]. unfold c0 in Hlt. lia. }
  assert (Cancel c0 ∉ effects wt) as HfreshC.
  { intros Hin. apply H3 in Hin as [Hlt _]. unfold c0 in Hlt. lia. }
  split; [|split; [|split; [|split]]].
  - intros b c H. destruct (decide (a = b)) as [<-|Hne].
    + rewrite lookup_insert_eq in H. injection H as <-. split.
      * apply elem_of_app. right. left.
      * rewrite elem_of_app, list_elem_of_singleton. intros [Hin | [=]]. by apply HfreshC.
    + rewrite lookup_insert_ne in H by done. destruct (H1 _ _ H) as [Hs Hc]. split.
      * apply elem_of_app. by left.
      * rewrite elem_of_app, list_elem_of_singleton. intros [Hin | [=]]. by apply Hc.
  - intros c b H. apply elem_of_app in H as [Hin | Hin].
    + destruct (H2 _ _ Hin) as [Hlt [Hrec | Hcan]]; (split; [lia|]).
      * left. rewrite lookup_insert_ne; [done|]. intros <-. congruence.
      * right. apply elem_of_app. by left.
    + apply list_elem_of_singleton in Hin. injection Hin as -> ->.
      split; [unfold c0; lia|]. left. by rewrite lookup_insert_eq.
  - intros c H. apply elem_of_app in H as [Hin | Hin].
    + destruct (H3 _ Hin) as [Hlt [x Hx]]. split; [lia|].
      exists x. apply elem_of_app. by left.
    + apply list_elem_of_singleton in Hin. discriminate.
  - intros c x y Hx Hy.
    apply elem_of_app in Hx as [Hx | Hx]; apply elem_of_app in Hy as [Hy | Hy].
    + by apply (H4 c).
    + apply list_elem_of_singleton in Hy. injection Hy as -> ->. by destruct (Hfresh x).
    + apply list_elem_of_singleton in Hx. injection Hx as -> ->. by destruct (Hfresh y).
    + apply list_elem_of_singleton in Hx, Hy. congruence.
  - apply NoDup_app. split; [done|]. split; [|apply NoDup_singleton].
    intros e He Hin. apply list_elem_of_singleton in Hin. subst e. by apply (Hfresh a).
Qed.

Lemma lifecycle_RemoveWallet a u wt : lifecycle wt → lifecycle (RemoveWallet a u wt).2.
Proof.
  intros (H1 & H2 & H3 & H4 & H5).
  destruct (RemoveWallet_cases a u wt) as [Hn [[Hl He] | (c0 & Hc0 & Hl & He)]];
    unfold lifecycle; rewrite Hn, Hl, He; [done|].
  destruct (H1 _ _ Hc0) as [Hstart Hnocancel].
  split; [|split; [|split; [|split]]].
  - intros b c H. apply lookup_delete_Some in H as [Hne H].
    destruct (H1 _ _ H) as [Hs Hc]. split.
    + apply elem_of_app. by left.
    + rewrite elem_of_app, list_elem_of_singleton. intros [Hin | [= ->]]; [by apply Hc|].
      apply Hne. by apply (H4 c0).
  - intros c b H. apply elem_of_app in H as [Hin | Hin].
    + destruct (H2 _ _ Hin) as [Hlt [Hrec | Hcan]]; (split; [lia|]).
      * destruct (decide (a = b)) as [<-|Hne].
        -- right. apply elem_of_app. right. apply list_elem_of_singleton. congruence.
        -- left. by rewrite lookup_delete_ne.
      * right. apply elem_of_app. by left.
    + apply list_elem_of_singleton in Hin. discriminate.
  - intros c H. apply elem_of_app in H as [Hin | Hin].
    + destruct (H3 _ Hin) as [Hlt [x Hx]]. split; [lia|].
      exists x. apply elem_of_app. by left.
    + apply list_elem_of_singleton in Hin. injection Hin as ->.
      split; [by apply (H2 _ _ Hstart)|]. exists a. apply elem_of_app. by left.
  - intros c x y Hx Hy.
    apply elem_of_app in Hx as [Hx | Hx]; [|apply list_elem_of_singleton in Hx; discriminate].
    apply elem_of_app in Hy as [Hy | Hy]; [|apply list_elem_of_singleton in Hy; discriminate].
    by apply (H4 c).
  - apply NoDup_app. split; [done|]. split; [|apply NoDup_singleton].
    intros e He' Hin. apply list_elem_of_singleton in Hin. by subst e.
Qed.

Lemma cancels_of_listeners wt c :
  Cancel c ∈ map (fun kv => Cancel kv.2) (map_to_list (listeners wt)) ↔
    ∃ a, listeners wt !! a = Some c.
Proof.
  rewrite map_fmap, list_elem_of_fmap. split.
  - intros ([a c'] & [= ->] & Hin). exists a. by apply elem_of_map_to_list in Hin.
  - intros [a Ha]. exists (a, c). split; [done|]. by apply elem_of_map_to_list.
Qed.

Lemma lifecycle_stopAllListeners wt : lifecycle wt → lifecycle (stopAllListeners wt).
Proof.
  intros (H1 & H2 & H3 & H4 & H5). unfold lifecycle, stopAllListeners; cbn.
  set (cancels := map (fun kv => Cancel kv.2) (map_to_list (listeners wt))).
  assert (∀ c a, StartListener c a ∉ cancels) as Hnostart.
  { intros c a Hin. unfold cancels in Hin. rewrite map_fmap in Hin.
    apply list_elem_of_fmap in Hin as (kv & [=] & _). }
  split; [|split; [|split; [|split]]].
  - intros a c H. by rewrite lookup_empty in H.
  - intros c a H. apply elem_of_app in H as [Hin | Hin]; [|by destruct (Hnostart _ _ Hin)].
    destruct (H2 _ _ Hin) as [Hlt [Hrec | Hcan]]; (split; [lia|]); right; apply elem_of_app.
    + right. apply cancels_of_listeners. by exists a.
    + by left.
  - intros c H. apply elem_of_app in H as [Hin | Hin].
    + destruct (H3 _ Hin) as [Hlt [x Hx]]. split; [lia|].
      exists x. apply elem_of_app. by left.
    + apply cancels_of_listeners in Hin as [a Ha].
      destruct (H1 _ _ Ha) as [Hs _]. split; [by apply (H2 _ _ Hs)|].
      exists a. apply elem_of_app. by left.
  - intros c x y Hx Hy.
    apply elem_of_app in Hx as [Hx | Hx]; [|by destruct (Hnostart _ _ Hx)].
    apply elem_of_app in Hy as [Hy | Hy]; [|by destruct (Hnostart _ _ Hy)].
    by apply (H4 c).
  - apply NoDup_app. split; [done|]. split.
    + intros e He Hin. unfold cancels in Hin. rewrite map_fmap in Hin.
      apply list_elem_of_fmap in Hin as ([a c] & -> & Hin).
      apply elem_of_map_to_list in Hin. by apply (H1 _ _ Hin).
    + unfold cancels. rewrite map_fmap. apply NoDup_fmap_2_strong.
      * intros [x c] [y d] Hx Hy [= Hcd]. simpl in Hcd. subst d.
        apply elem_of_map_to_list in Hx, Hy.
        f_equal. apply (H4 c); by apply H1.
      * apply NoDup_map_to_list.
Qed.

Lemma lifecycle_step wt op : lifecycle wt → lifecycle (step wt op).
Proof.
  destruct op; cbn [step];
    auto using lifecycle_AddWallet, lifecycle_RemoveWallet, lifecycle_stopAllListeners.
Qed.

Lemma lifecycle_run (ops : list Op) : lifecycle (run ops).
Proof.
  induction ops as [|op ops IH] using rev_ind; [apply lifecycle_new|].
  rewrite run_snoc. by apply lifecycle_step.
Qed.

End Lifecycle.

(** X2. After any history of operations: every recorded cancel function
    belongs to a context that was started for its address and has not been
    cancelled; every context ever started is still recorded for its address
    or has been cancelled; only started contexts are cancelled; and no
    context is started or cancelled twice. *)
Theorem listener_lifecycle (ops : list Op) : lifecycle (run ops).
Proof. apply lifecycle_run. Qed.

(** X3. After a shutdown that follows any history of operations, both maps
    are empty and every listener ever started has been cancelled. *)
Theorem shutdown_cancels_all (ops : list Op) (c : CancelFunc) (a : WalletAddress) :
  let wt := stopAllListeners (run ops) in
  listeners wt = ∅ ∧ subscribers wt = ∅ ∧
  (StartListener c a ∈ effects wt → Cancel c ∈ effects wt).
Proof.
  intros wt. split; [done|]. split; [done|]. intros Hin.
  destruct (lifecycle_stopAllListeners _ (lifecycle_run ops)) as (_ & H2 & _).
  destruct (H2 _ _ Hin) as [_ [Hrec | Hcan]]; [|done].
  unfold wt in Hrec. simpl in Hrec. by rewrite lookup_empty in Hrec.
Qed.

Lemma shutdown_cancels_all_witness :
  StartListener 0%nat walletW ∈ effects (stopAllListeners (run [OpAdd walletW 1])) ∧
  Cancel 0%nat ∈ effects (stopAllListeners (run [OpAdd walletW 1])).
Proof.
  assert (StartListener 0%nat walletW
            ∈ effects (stopAllListeners (run [OpAdd walletW 1]))) as Hin.
  { vm_compute. left. }
  split; [exact Hin|].
  exact (proj2 (proj2 (shutdown_cancels_all [OpAdd walletW 1] 0%nat walletW)) Hin).
Defined.

(** X4. [AddWallet] and [RemoveWallet] for one address leave the subscriber
    list and the listener of every other address as they were. *)
Theorem operations_leave_other_addresses (a b : WalletAddress) (u : UserID)
    (wt : WalletTracker) :
  a ≠ b →
  subscribersOf (AddWallet a u wt).2 b = subscribersOf wt b ∧
  listeners (AddWallet a u wt).2 !! b = listeners wt !! b ∧
  subscribersOf (RemoveWallet a u wt).2 b = subscribersOf wt b ∧
  listeners (RemoveWallet a u wt).2 !! b = listeners wt !! b.
Proof.
  intros Hne.
  by rewrite AddWallet_subscribers_ne, AddWallet_listeners_ne,
    RemoveWallet_subscribers_ne, RemoveWallet_listeners_ne.
Qed.

Lemma operations_leave_other_addresses_witness :
  walletW ≠ walletV ∧
  subscribersOf (RemoveWallet walletW 1 (run [OpAdd walletV 1])).2 walletV = [1].
Proof.
  assert (walletW ≠ walletV) as Hne by discriminate.
  split; [exact Hne|].
  exact (proj1 (proj2 (proj2
    (operations_leave_other_addresses walletW walletV 1 (run [OpAdd walletV 1]) Hne)))).
Defined.

(** X5. In a state reached from the empty tracker where [u] is the only
    subscriber of [a], [RemoveWallet a u] calls the recorded cancel function
    and deletes the address from both maps; an [AddWallet] for [a] after it
    starts a listener on a new context, different from the cancelled one,
    with the new user as only subscriber. *)
Theorem remove_last_then_add_again (ops : list Op) (a : WalletAddress) (u v : UserID) :
  subscribersOf (run ops) a = [u] →
  let wt1 := (RemoveWallet a u (run ops)).2 in
  let wt2 := (AddWallet a v wt1).2 in
  ∃ c, listeners (run ops) !! a = Some c ∧
       listeners wt1 !! a = None ∧
       subscribers wt1 !! a = None ∧
       effects wt1 = effects (run ops) ++ [Cancel c] ∧
       listeners wt2 !! a = Some (nextCtx (run ops)) ∧
       nextCtx (run ops) ≠ c ∧
       subscribersOf wt2 a = [v] ∧
       effects wt2 = effects wt1 ++ [StartListener (nextCtx (run ops)) a].
Proof.
  intros Hs wt1 wt2.
  assert (is_Some (listeners (run ops) !! a)) as [c Hc].
  { apply consistent_run. by rewrite Hs. }
  destruct (RemoveWallet_last_subscriber a u (run ops) c Hs Hc) as (Hl1 & Hs1 & He1).
  fold wt1 in Hl1, Hs1, He1.
  assert (nextCtx wt1 = nextCtx (run ops)) as Hn1 by apply RemoveWallet_cases.
  destruct (AddWallet_starts_listener a v wt1 Hl1) as [Hl2 He2].
  fold wt2 in Hl2, He2. rewrite Hn1 in Hl2, He2.
  exists c. repeat (split; [done|]). split; [|split; [|done]].
  - destruct (lifecycle_run ops) as (H1 & H2 & _).
    destruct (H1 _ _ Hc) as [Hstart _]. apply H2 in Hstart as [Hlt _]. lia.
  - unfold wt2. rewrite AddWallet_subscribers_eq. unfold subscribersOf. by rewrite Hs1.
Qed.

Lemma remove_last_then_add_again_witness :
  subscribersOf (run [OpAdd walletW 1]) walletW = [1] ∧
  listeners (AddWallet walletW 2 (RemoveWallet walletW 1 (run [OpAdd walletW 1])).2).2
    !! walletW = Some 1%nat.
Proof.
  assert (subscribersOf (run [OpAdd walletW 1]) walletW = [1]) as Hs by reflexivity.
  split; [exact Hs|].
  destruct (remove_last_then_add_again [OpAdd walletW 1] walletW 1 2 Hs)
    as (c & _ & _ & _ & _ & Hl & _).
  exact Hl.
Defined.

Lemma runCommands_from (cmds : list Command) (wt : WalletTracker) :
  fold_left (fun wt cmd => snd (HandleCommand cmd wt)) cmds wt =
    fold_left step (omap commandOp cmds) wt.
Proof.
  revert wt; induction cmds as [|cmd cmds IH]; intros wt; [done|].
  cbn [fold_left]. rewrite IH. unfold omap at 2; cbn [list_omap]. fold (omap commandOp cmds).
  unfold HandleCommand, commandOp.
  destruct (String.eqb (CType cmd) AddWalletCommand); [done|].
  destruct (String.eqb (CType cmd) RemoveWalletCommand); done.
Qed.

(** X6. Handling a list of commands in order leaves the tracker in the
    state of the operations the commands of type [add_wallet] and
    [remove_wallet] stand for, in that order; commands of any other type
    change nothing.  In that state an address has a listener exactly when
    it has subscribers. *)
Theorem commands_run_their_operations (cmds : list Command) (a : WalletAddress) :
  runCommands cmds = run (omap commandOp cmds) ∧
  (is_Some (listeners (runCommands cmds) !! a) ↔ subscribersOf (runCommands cmds) a ≠ []).
Proof.
  assert (runCommands cmds = run (omap commandOp cmds)) as H by apply runCommands_from.
  split; [exact H|]. rewrite H. apply consistent_run.
Qed.

(** ** Further properties of the client *)

(** *** The token cache *)

Section Cache.

Variable E : External.

Implicit Types (a b : common_Address) (pc : PlasmaClient).

(** The four ways through [getTokenSymbol]. *)
Lemma getTokenSymbol_cases a pc :
  (∃ s, tokenCache pc !! a = Some s ∧ getTokenSymbol E a pc = (s, pc)) ∨
  (tokenCache pc !! a = None ∧ builtin E a = true ∧
   ∃ s, ∀ pc', tokenCache pc' !! a = None → getTokenSymbol E a pc' = (s, pc')) ∨
  (tokenCache pc !! a = None ∧ builtin E a = false ∧ abiParses E = false ∧
   ∀ pc', tokenCache pc' !! a = None → getTokenSymbol E a pc' = (shortHex E a, pc')) ∨
  (tokenCache pc !! a = None ∧ builtin E a = false ∧ abiParses E = true ∧
   ∃ s, getTokenSymbol E a pc =
          (s, {| tokenCache := <[a := s]> (tokenCache pc);
                 symbolCalls := symbolCalls pc ++ [a] |})).
Proof.
  unfold getTokenSymbol, builtin, GetTokenSymbol.
  destruct (tokenCache pc !! a) as [s|] eqn:Hc; [left; by exists s|]. right.
  destruct (String.eqb (AddressHex E a) zeroAddressHex) eqn:Hz.
  { left. split; [done|]. split; [reflexivity|]. exists "XPL"%string. intros pc' ->. done. }
  destruct (String.eqb (AddressHex E a) "0xa0b86a33e6ba0c74d75c9abfd35e5e0b1bcceb83") eqn:Hw.
  { left. split; [done|]. split; [reflexivity|]. exists "WXPL"%string. intros pc' ->. done. }
  right. destruct (abiParses E); [right | left]; cbn [negb orb].
  - split; [done|]. split; [reflexivity|]. split; [done|]. by eexists.
  - split; [done|]. split; [reflexivity|]. split; [done|]. intros pc' ->. done.
Qed.

Lemma getTokenSymbol_again a pc :
  getTokenSymbol E a (getTokenSymbol E a pc).2 =
    ((getTokenSymbol E a pc).1, (getTokenSymbol E a pc).2).
Proof.
  destruct (getTokenSymbol_cases a pc)
    as [(s & Hc & Hq) | [(Hc & Hb & s & Hq) | [(Hc & Hb & Ha & Hq) | (Hc & Hb & Ha & s & Hq)]]].
  - rewrite Hq. cbn [fst snd]. by rewrite Hq.
  - rewrite (Hq pc Hc). cbn [fst snd]. by rewrite (Hq pc Hc).
  - rewrite (Hq pc Hc). cbn [fst snd]. by rewrite (Hq pc Hc).
  - rewrite Hq. cbn [fst snd]. unfold getTokenSymbol. cbn [tokenCache].
    by rewrite lookup_insert_eq.
Qed.

Lemma getTokenSymbol_cache_grows a b pc s :
  tokenCache pc !! b = Some s → tokenCache (getTokenSymbol E a pc).2 !! b = Some s.
Proof.
  intros Hb.
  destruct (getTokenSymbol_cases a pc)
    as [(s' & Hc & ->) | [(Hc & _ & s' & Hq) | [(Hc & _ & _ & Hq) | (Hc & _ & _ & s' & ->)]]];
    rewrite ?(Hq pc Hc); cbn [snd tokenCache]; try done.
  rewrite lookup_insert_ne; [done | congruence].
Qed.

Lemma resolveMany_cache_grows (addrs : list common_Address) b pc s :
  tokenCache pc !! b = Some s → tokenCache (resolveMany E addrs pc) !! b = Some s.
Proof.
  revert pc; induction addrs as [|a addrs IH]; intros pc Hb; [done|].
  cbn [resolveMany fold_left]. apply IH. by apply getTokenSymbol_cache_grows.
Qed.

Lemma cacheInv_new : cacheInv E NewPlasmaClient.
Proof.
  unfold cacheInv; simpl. split; [|split].
  - intros a H. by apply elem_of_nil in H.
  - constructor.
  - intros a [s H]. by rewrite lookup_empty in H.
Qed.

Lemma cacheInv_getTokenSymbol a pc : cacheInv E pc → cacheInv E (getTokenSymbol E a pc).2.
Proof.
  intros (I1 & I2 & I3).
  destruct (getTokenSymbol_cases a pc)
    as [(s' & Hc & ->) | [(Hc & _ & s' & Hq) | [(Hc & _ & _ & Hq) | (Hc & Hb & _ & s' & ->)]]];
    rewrite ?(Hq pc Hc); cbn [snd]; try done.
  unfold cacheInv; cbn [tokenCache symbolCalls]. split; [|split].
  - intros b Hin. apply elem_of_app in Hin as [Hin | Hin].
    + destruct (I1 _ Hin) as [s Hs]. exists s.
      rewrite lookup_insert_ne; [done | congruence].
    + apply list_elem_of_singleton in Hin. subst b. rewrite lookup_insert_eq. by eexists.
  - apply NoDup_app. split; [done|]. split; [|apply NoDup_singleton].
    intros b Hin Hb'. apply list_elem_of_singleton in Hb'. subst b.
    destruct (I1 _ Hin) as [s Hs]. congruence.
  - intros b [s Hs]. destruct (decide (a = b)) as [<-|Hne]; [done|].
    rewrite lookup_insert_ne in Hs by done. apply I3. by exists s.
Qed.

Lemma cacheInv_resolveMany (addrs : list common_Address) pc :
  cacheInv E pc → cacheInv E (resolveMany E addrs pc).
Proof.
  revert pc; induction addrs as [|a addrs IH]; intros pc Hinv; [done|].
  cbn [resolveMany fold_left]. apply IH. by apply cacheInv_getTokenSymbol.
Qed.

Lemma settled_after a pc : settled E a (getTokenSymbol E a pc).1 (getTokenSymbol E a pc).2.
Proof.
  destruct (getTokenSymbol_cases a pc)
    as [(s & Hc & Hq) | [(Hc & Hb & s & Hq) | [(Hc & Hb & Ha & Hq) | (Hc & Hb & Ha & s & Hq)]]].
  - rewrite Hq. by left.
  - rewrite (Hq pc Hc). right. by split.
  - rewrite (Hq pc Hc). right. by split.
  - rewrite Hq. left. cbn. by rewrite lookup_insert_eq.
Qed.

Lemma settled_resolves a s pc : settled E a s pc → getTokenSymbol E a pc = (s, pc).
Proof.
  intros [Hc | [Hc Hq]]; [|by apply Hq].
  unfold getTokenSymbol. by rewrite Hc.
Qed.

Lemma settled_getTokenSymbol a b s pc :
  settled E a s pc → settled E a s (getTokenSymbol E b pc).2.
Proof.
  intros [Hc | [Hc Hq]].
  - left. by apply getTokenSymbol_cache_grows.
  - right. split; [|exact Hq].
    destruct (decide (b = a)) as [->|Hne]; [by rewrite (Hq pc Hc)|].
    destruct (getTokenSymbol_cases b pc)
      as [(s' & _ & ->) | [(Hb & _ & s' & Hq') | [(Hb & _ & _ & Hq') | (_ & _ & _ & s' & ->)]]];
      rewrite ?(Hq' pc Hb); cbn [snd tokenCache]; try done.
    by rewrite lookup_insert_ne.
Qed.

Lemma settled_resolveMany (addrs : list common_Address) a s pc :
  settled E a s pc → settled E a s (resolveMany E addrs pc).
Proof.
  revert pc; induction addrs as [|b addrs IH]; intros pc Hs; [done|].
  cbn [resolveMany fold_left]. apply IH. by apply settled_getTokenSymbol.
Qed.

End Cache.

(** X7. Resolving the symbol of a contract a second time, right after the
    first, returns the same symbol and leaves the client as the first
    resolution left it: no call is made and the cache is not written. *)
Theorem getTokenSymbol_idempotent (E : External) (a : common_Address) (pc : PlasmaClient) :
  getTokenSymbol E a (getTokenSymbol E a pc).2 =
    ((getTokenSymbol E a pc).1, (getTokenSymbol E a pc).2).
Proof. apply getTokenSymbol_again. Qed.

(** *** Extraction and the client state *)

Section Extraction.

Variable E : External.
Variable tx : EthTransaction.

Lemma logTransfers_client (logs : list Log) :
  ∀ (i : nat) (transfers : list Transfer) (pc : PlasmaClient),
    (logTransfers E tx i logs transfers pc).2 =
      resolveMany E (map logAddress (List.filter isTransferLog logs)) pc.
Proof.
  induction logs as [|log logs IH]; intros i transfers pc;
    cbn [logTransfers List.filter]; [done|].
  destruct (isTransferLog log); [|apply IH].
  destruct (getTokenSymbol E (logAddress log) pc) as [tokenSymbol pc1] eqn:Hq.
  rewrite IH. cbn [map resolveMany fold_left]. by rewrite Hq.
Qed.

Lemma logTransfers_length (logs : list Log) :
  ∀ (i : nat) (transfers : list Transfer) (pc : PlasmaClient),
    length (logTransfers E tx i logs transfers pc).1 =
      (length transfers + length (List.filter isTransferLog logs))%nat.
Proof.
  induction logs as [|log logs IH]; intros i transfers pc;
    cbn [logTransfers List.filter]; [simpl; lia|].
  destruct (isTransferLog log); [|apply IH].
  destruct (getTokenSymbol E (logAddress log) pc) as [tokenSymbol pc1].
  rewrite IH, length_app. simpl. lia.
Qed.

Lemma logTransfers_Forall (P : Transfer → Prop) (n : nat) (logs : list Log) :
  (∀ i log symbol, (i < n)%nat →
     P {| TxHash := HashHex (txHash tx);
          From := AddressHex E (topicAddress (nth 1 (Topics log) 0));
          To := AddressHex E (topicAddress (nth 2 (Topics log) 0));
          Value := SetBytes (Data log);
          TokenSymbol := symbol;
          TokenAddress := AddressHex E (logAddress log);
          LogIndex := Z.of_nat i |}) →
  ∀ (i : nat) (transfers : list Transfer) (pc : PlasmaClient),
    (i + length logs ≤ n)%nat → Forall P transfers →
    Forall P (logTransfers E tx i logs transfers pc).1.
Proof.
  intros HP. induction logs as [|log logs IH]; intros i transfers pc Hn Hall;
    cbn [logTransfers]; [done|].
  cbn [length] in Hn.
  destruct (isTransferLog log); [|apply IH; [lia | done]].
  destruct (getTokenSymbol E (logAddress log) pc) as [tokenSymbol pc1].
  apply IH; [lia|]. apply Forall_app. split; [done|].
  apply Forall_singleton. apply HP. lia.
Qed.

End Extraction.

(** X12. [extractAllTransfers] leaves the client as resolving, in receipt
    order, the emitting contract of every log of the transfer-event shape
    leaves it; a receipt without such logs leaves the client unchanged. *)
Theorem extractAllTransfers_client (E : External) (tx : EthTransaction)
    (receipt : Receipt) (pc : PlasmaClient) :
  (extractAllTransfers E tx receipt pc).2 =
    resolveMany E (map logAddress (List.filter isTransferLog (Logs receipt))) pc.
Proof. apply logTransfers_client. Qed.

(** X13. Every transfer that [extractAllTransfers] returns carries the hash
    of the transaction, a value that is not negative, and a log index
    between [-1] and the last position of the receipt's logs; the number of
    transfers is the number of logs of the transfer-event shape, plus one
    when the transaction's value is above zero. *)
Theorem extractAllTransfers_wellformed (E : External) (tx : EthTransaction)
    (receipt : Receipt) (pc : PlasmaClient) :
  let transfers := (extractAllTransfers E tx receipt pc).1 in
  Forall (fun t => TxHash t = HashHex (txHash tx) ∧ 0 ≤ Value t ∧
                   -1 ≤ LogIndex t < Z.of_nat (length (Logs receipt))) transfers ∧
  length transfers =
    ((if (0 <? txValue tx)%Z then 1 else 0) +
     length (List.filter isTransferLog (Logs receipt)))%nat.
Proof.
  intros transfers. unfold transfers, extractAllTransfers. split.
  - apply (logTransfers_Forall E tx _ (length (Logs receipt))).
    + intros i log symbol Hi. cbn [TxHash Value LogIndex].
      rewrite SetBytes_bigEndian. pose proof (bigEndian_nonneg (Data log)).
      split; [done | lia].
    + cbn [Nat.add]. lia.
    + unfold nativeTransfers. destruct (0 <? txValue tx) eqn:Hv; [|constructor].
      apply Forall_singleton. cbn [TxHash Value LogIndex]. apply Z.ltb_lt in Hv.
      split; [done | lia].
  - rewrite logTransfers_length. unfold nativeTransfers.
    by destruct (0 <? txValue tx).
Qed.

(** *** Narrowing and detection *)

Section Detection.

Variable E : External.

Implicit Types (tx : EthTransaction) (receipt : Receipt) (address : common_Address)
  (pc : PlasmaClient).

Lemma filter_sublist {A} (f : A → bool) (l : list A) : List.filter f l `sublist_of` l.
Proof.
  induction l as [|x l IH]; cbn [List.filter]; [constructor|].
  destruct (f x); by constructor.
Qed.

Lemma filter_twice {A} (f : A → bool) (l : list A) :
  List.filter f (List.filter f l) = List.filter f l.
Proof.
  induction l as [|x l IH]; cbn [List.filter]; [done|].
  destruct (f x) eqn:Hx; [|done]. cbn [List.filter]. by rewrite Hx, IH.
Qed.

Lemma filter_elem {A} (f : A → bool) (l : list A) (x : A) :
  x ∈ List.filter f l ↔ x ∈ l ∧ f x = true.
Proof. by rewrite !list_elem_of_In, filter_In. Qed.

Lemma filter_nonempty {A} (f : A → bool) (l : list A) :
  List.filter f l ≠ [] ↔ ∃ x, x ∈ l ∧ f x = true.
Proof.
  split.
  - destruct (List.filter f l) as [|x r] eqn:Hf; [done|]. intros _.
    exists x. apply filter_elem. rewrite Hf. left.
  - intros (x & Hx) Hnil. apply filter_elem in Hx. rewrite Hnil in Hx.
    by apply elem_of_nil in Hx.
Qed.

(** [detectTransaction] in one equation. *)
Lemma detectTransaction_eq tx receipt blockTime address pc :
  detectTransaction E tx receipt blockTime address pc =
    if isAddressInvolved tx receipt address then
      match List.filter (touches address) (extractAllTransfers E tx receipt pc).1 with
      | [] => (None, (extractAllTransfers E tx receipt pc).2)
      | t :: ts =>
          (Some {| Hash := HashHex (txHash tx);
                   TxFrom := AddressHex E (default 0 (txSender tx));
                   TxTo := toHex E (txTo tx);
                   BlockNumber := rBlockNumber receipt;
                   TxTimestamp := blockTime;
                   GasUsed := rGasUsed receipt;
                   GasPrice := txGasPrice tx;
                   Transfers := t :: ts |},
           (extractAllTransfers E tx receipt pc).2)
      end
    else (None, pc).
Proof.
  unfold detectTransaction, createDomainTransaction.
  destruct (isAddressInvolved tx receipt address); [|done].
  destruct (extractAllTransfers E tx receipt pc) as [transfers pc1].
  cbn [Transfers fst snd Hash TxFrom TxTo BlockNumber TxTimestamp GasUsed GasPrice].
  rewrite filterTransfers_filter.
  by destruct (List.filter (touches address) transfers).
Qed.

Lemma detectTransaction_Some tx receipt blockTime address pc d :
  (detectTransaction E tx receipt blockTime address pc).1 = Some d →
  isAddressInvolved tx receipt address = true ∧
  Transfers d = filterTransfersForAddress (extractAllTransfers E tx receipt pc).1 address ∧
  Transfers d ≠ [] ∧
  Forall (fun t => touches address t = true) (Transfers d) ∧
  Hash d = HashHex (txHash tx) ∧
  TxTimestamp d = blockTime.
Proof.
  rewrite detectTransaction_eq, filterTransfers_filter.
  destruct (isAddressInvolved tx receipt address); [|done].
  destruct (List.filter _ _) as [|t ts] eqn:Hf; [done|].
  intros [= <-]. cbn. repeat (split; [done|]). split; [|done].
  rewrite <- Hf. apply Forall_forall. intros x Hx. by apply filter_elem in Hx as [_ Hx].
Qed.

Lemma extract_nothing tx receipt pc :
  txValue tx ≤ 0 → List.filter isTransferLog (Logs receipt) = [] →
  extractAllTransfers E tx receipt pc = ([], pc).
Proof.
  intros Hv Hl.
  pose proof (logTransfers_length E tx (Logs receipt) 0 (nativeTransfers E tx) pc) as Hlen.
  pose proof (logTransfers_client E tx (Logs receipt) 0 (nativeTransfers E tx) pc) as Hpc.
  fold (extractAllTransfers E tx receipt pc) in Hlen, Hpc.
  rewrite Hl in Hlen, Hpc. unfold nativeTransfers in Hlen.
  apply Z.ltb_ge in Hv. rewrite Hv in Hlen. cbn in Hlen, Hpc.
  destruct (extractAllTransfers E tx receipt pc) as [ts pc1]. cbn in *.
  destruct ts; [by subst | discriminate].
Qed.

End Detection.

(** X14. [filterTransfersForAddress] returns the transfers whose sender or
    recipient reads back as the address, and only those, in their order;
    narrowing a narrowed list changes nothing. *)
Theorem filterTransfers_narrows (transfers : list Transfer) (address : common_Address) :
  let relevant := filterTransfersForAddress transfers address in
  (∀ t, t ∈ relevant ↔ t ∈ transfers ∧ touches address t = true) ∧
  relevant `sublist_of` transfers ∧
  filterTransfersForAddress relevant address = relevant.
Proof.
  intros relevant. unfold relevant. rewrite !filterTransfers_filter.
  split; [intros t; apply filter_elem|]. split; [apply filter_sublist | apply filter_twice].
Qed.

(** X15. A transaction that [processBlockForAddress] offers to the channel
    of an address is involved with the address, and its transfers are the
    transfers of the extraction that touch the address, at least one; it
    carries the hash of the chain transaction and the time of the block.
    A transaction that is not involved is dropped before any extraction,
    with the client untouched. *)
Theorem detectTransaction_sound (E : External) (tx : EthTransaction) (receipt : Receipt)
    (blockTime : Z) (address : common_Address) (pc : PlasmaClient) :
  (∀ d, (detectTransaction E tx receipt blockTime address pc).1 = Some d →
     isAddressInvolved tx receipt address = true ∧
     Transfers d = filterTransfersForAddress (extractAllTransfers E tx receipt pc).1 address ∧
     Transfers d ≠ [] ∧
     Forall (fun t => touches address t = true) (Transfers d) ∧
     Hash d = HashHex (txHash tx) ∧
     TxTimestamp d = blockTime) ∧
  (isAddressInvolved tx receipt address = false →
     detectTransaction E tx receipt blockTime address pc = (None, pc)).
Proof.
  split; [intros d; apply detectTransaction_Some|].
  intros Hno. by rewrite detectTransaction_eq, Hno.
Qed.

Lemma detectTransaction_sound_witness :
  (∃ d, (detectTransaction failingNode paymentTx paymentReceipt 1000
           (HexToAddress walletW) NewPlasmaClient).1 = Some d ∧
        TxTimestamp d = 1000) ∧
  (isAddressInvolved paymentTx paymentReceipt 5 = false ∧
   detectTransaction failingNode paymentTx paymentReceipt 1000 5 NewPlasmaClient
     = (None, NewPlasmaClient)).
Proof.
  split.
  - eexists. split; [vm_compute; reflexivity|].
    exact (proj2 (proj2 (proj2 (proj2 (proj2
      (proj1 (detectTransaction_sound failingNode paymentTx paymentReceipt 1000
                (HexToAddress walletW) NewPlasmaClient) _ eq_refl)))))).
  - assert (isAddressInvolved paymentTx paymentReceipt 5 = false) as Hno by reflexivity.
    split; [exact Hno|].
    exact (proj2 (detectTransaction_sound failingNode paymentTx paymentReceipt 1000 5
                    NewPlasmaClient) Hno).
Defined.

(** X16. A transaction without value whose receipt has no log of the
    transfer-event shape is never offered to a channel, also when the
    watched address sent it or receives it, and it leaves the client
    unchanged. *)
Theorem valueless_transaction_not_reported (E : External) (tx : EthTransaction)
    (receipt : Receipt) (blockTime : Z) (address : common_Address) (pc : PlasmaClient) :
  txValue tx ≤ 0 → List.filter isTransferLog (Logs receipt) = [] →
  detectTransaction E tx receipt blockTime address pc = (None, pc).
Proof.
  intros Hv Hl. rewrite detectTransaction_eq, (extract_nothing E tx receipt pc Hv Hl).
  by destruct (isAddressInvolved tx receipt address).
Qed.

Lemma valueless_transaction_not_reported_witness :
  txValue (mkEthTransaction 0x79 (Some 0x1111111111111111111111111111111111111111)
             (Some tokenT) 0 1) ≤ 0 ∧
  List.filter isTransferLog (Logs paymentReceipt) = [] ∧
  detectTransaction failingNode
    (mkEthTransaction 0x79 (Some 0x1111111111111111111111111111111111111111)
       (Some tokenT) 0 1)
    paymentReceipt 1000 0x1111111111111111111111111111111111111111 NewPlasmaClient
    = (None, NewPlasmaClient).
Proof.
  assert (txValue (mkEthTransaction 0x79 (Some 0x1111111111111111111111111111111111111111)
                     (Some tokenT) 0 1) ≤ 0) as Hv by (intros H; discriminate H).
  assert (List.filter isTransferLog (Logs paymentReceipt) = []) as Hl by reflexivity.
  split; [exact Hv|]. split; [exact Hl|].
  exact (valueless_transaction_not_reported failingNode _ paymentReceipt 1000
           0x1111111111111111111111111111111111111111 NewPlasmaClient Hv Hl).
Defined.

(** *** Which transactions are reported *)

Section Reporting.

Variable E : External.

(** [common.HexToAddress] reads back what [common.Address.Hex] prints. *)
Hypothesis hex_round_trip : ∀ x, validAddress x → HexToAddress (AddressHex E x) = x.

Implicit Types (tx : EthTransaction) (receipt : Receipt) (address : common_Address)
  (pc : PlasmaClient).

Lemma touches_token tx address (il : nat * Log) (t : Transfer) :
  tokenTransferOf E tx il t →
  touches address t = true ↔
    ∃ t1 t2, transferShape il.2 t1 t2 ∧
             (t1 mod 2 ^ 160 = address ∨ t2 mod 2 ^ 160 = address).
Proof.
  intros (t1 & t2 & Hshape & _ & Hfrom & Hto & _).
  unfold touches. rewrite Hfrom, Hto.
  rewrite !hex_round_trip by (unfold validAddress; apply Z.mod_pos_bound; lia).
  rewrite orb_true_iff, !Z.eqb_eq. split.
  - intros H. by exists t1, t2.
  - intros (u1 & u2 & [r Hu] & H). destruct Hshape as [r' Ht]. rewrite Ht in Hu.
    by injection Hu as <- <- _.
Qed.

Lemma logs_touch tx receipt address pc :
  (∃ log t1 t2, log ∈ Logs receipt ∧ transferShape log t1 t2 ∧
                (t1 mod 2 ^ 160 = address ∨ t2 mod 2 ^ 160 = address)) ↔
  ∃ tokens, (extractAllTransfers E tx receipt pc).1 = nativeTransfers E tx ++ tokens ∧
            ∃ t, t ∈ tokens ∧ touches address t = true.
Proof.
  destruct (logTransfers_spec E tx (Logs receipt) 0 (nativeTransfers E tx) pc)
    as (tokens & Heq & Hall).
  fold (extractAllTransfers E tx receipt pc) in Heq.
  fold (transferLogs (Logs receipt)) in Hall. split.
  - intros (log & t1 & t2 & Hin & Hshape & Hhit). exists tokens. split; [done|].
    destruct (proj1 (list_elem_of_lookup _ _) Hin) as [i Hi].
    assert ((i, log) ∈ transferLogs (Logs receipt)) as Hil.
    { apply transferLogs_elem. split; [done|]. apply isTransferLog_topics. by exists t1, t2. }
    destruct (proj1 (list_elem_of_lookup _ _) Hil) as [k Hk].
    destruct (Forall2_lookup_r _ _ _ _ _ Hall Hk) as (t & Ht & HR).
    exists t. split; [by apply list_elem_of_lookup_2 in Ht|].
    apply (touches_token tx address (i, log) t HR). by exists t1, t2.
  - intros (tokens' & Heq' & t & Hin & Htouch).
    rewrite Heq in Heq'. apply app_inv_head in Heq'. subst tokens'.
    destruct (proj1 (list_elem_of_lookup _ _) Hin) as [k Hk].
    destruct (Forall2_lookup_l _ _ _ _ _ Hall Hk) as ([i log] & Hil & HR).
    apply (touches_token tx address (i, log) t HR) in Htouch as (t1 & t2 & Hshape & Hhit).
    apply list_elem_of_lookup_2, transferLogs_elem in Hil as [Hlog _].
    exists log, t1, t2. split; [by apply list_elem_of_lookup_2 in Hlog | done].
Qed.

Lemma reported_iff tx receipt blockTime address pc :
  validAddress address →
  is_Some (detectTransaction E tx receipt blockTime address pc).1 ↔
    (0 < txValue tx ∧ (txSender tx = Some address ∨ txTo tx = Some address)) ∨
    (∃ log t1 t2, log ∈ Logs receipt ∧ transferShape log t1 t2 ∧
                  (t1 mod 2 ^ 160 = address ∨ t2 mod 2 ^ 160 = address)).
Proof.
  intros Ha.
  assert (is_Some (detectTransaction E tx receipt blockTime address pc).1 ↔
          isAddressInvolved tx receipt address = true ∧
          ∃ t, t ∈ (extractAllTransfers E tx receipt pc).1 ∧ touches address t = true) as ->.
  { rewrite detectTransaction_eq, <- filter_nonempty.
    destruct (isAddressInvolved tx receipt address); cbn [fst].
    - destruct (List.filter _ _); cbn [fst]; split.
      + intros [? [=]].
      + intros [_ H]. done.
      + intros _. done.
      + intros _. by eexists.
    - split; [intros [? [=]] | intros [[=] _]]. }
  assert (isAddressInvolved tx receipt address = true ↔
          txSender tx = Some address ∨ txTo tx = Some address ∨
          ∃ log t1 t2, log ∈ Logs receipt ∧ transferShape log t1 t2 ∧
                       (t1 mod 2 ^ 160 = address ∨ t2 mod 2 ^ 160 = address)) as Hinv.
  { unfold isAddressInvolved.
    destruct (addressEqOpt (txSender tx) address) eqn:H1.
    { apply addressEqOpt_true in H1. split; [by left | done]. }
    destruct (addressEqOpt (txTo tx) address) eqn:H2.
    { apply addressEqOpt_true in H2. split; [by right; left | done]. }
    assert (txSender tx ≠ Some address) as Hns
      by (intros Heq; apply addressEqOpt_true in Heq; congruence).
    assert (txTo tx ≠ Some address) as Hnt
      by (intros Heq; apply addressEqOpt_true in Heq; congruence).
    rewrite involvedInLogs_true. split.
    - intros (log & Hin & Hshape & Hhit). right; right.
      apply isTransferLog_topics in Hshape as (t1 & t2 & rest & Htop).
      rewrite Htop in Hhit. cbn [nth] in Hhit. rewrite !topicAddress_mod in Hhit.
      exists log, t1, t2.
      split; [done|]. split; [by exists rest | done].
    - intros [? | [? | (log & t1 & t2 & Hin & [rest Htop] & Hhit)]]; [done | done |].
      exists log. split; [done|]. split.
      + apply isTransferLog_topics. by exists t1, t2, rest.
      + rewrite Htop. cbn [nth]. by rewrite !topicAddress_mod. }
  rewrite Hinv. clear Hinv.
  pose proof (logs_touch tx receipt address pc) as Hlogs.
  destruct (logTransfers_spec E tx (Logs receipt) 0 (nativeTransfers E tx) pc)
    as (tokens & Heq & _).
  fold (extractAllTransfers E tx receipt pc) in Heq.
  split.
  - intros [Hinvolved (t & Hin & Htouch)]. rewrite Heq in Hin.
    apply elem_of_app in Hin as [Hnat | Htok].
    2:{ right. apply Hlogs. exists tokens. split; [done|]. by exists t. }
    unfold nativeTransfers in Hnat. destruct (0 <? txValue tx) eqn:Hv;
      [|by apply elem_of_nil in Hnat].
    apply Z.ltb_lt in Hv. apply list_elem_of_singleton in Hnat. subst t.
    unfold touches in Htouch. cbn [From To] in Htouch.
    destruct Hinvolved as [H | [H | H]]; [left; by auto | left; by auto | by right].
  - intros [[Hv [Hsender | Hto]] | Hlog].
    + split; [by left|]. exists (hd (mkTransfer "" "" "" 0 "" "" 0) (nativeTransfers E tx)).
      unfold nativeTransfers. apply Z.ltb_lt in Hv as Hv'.
      rewrite Heq. unfold nativeTransfers. rewrite Hv'. cbn [hd]. split; [left|].
      unfold touches. cbn [From To]. rewrite Hsender. cbn [default].
      rewrite hex_round_trip by done. by rewrite Z.eqb_refl.
    + split; [by right; left|]. exists (hd (mkTransfer "" "" "" 0 "" "" 0) (nativeTransfers E tx)).
      unfold nativeTransfers. apply Z.ltb_lt in Hv as Hv'.
      rewrite Heq. unfold nativeTransfers. rewrite Hv'. cbn [hd]. split; [left|].
      unfold touches. cbn [From To]. rewrite Hto. cbn [toHex].
      rewrite (hex_round_trip address) by done. rewrite Z.eqb_refl. apply orb_true_r.
    + split; [by right; right|].
      apply Hlogs in Hlog as (tokens' & Heq' & t & Hin & Htouch).
      exists t. split; [|done]. rewrite Heq'. apply elem_of_app. by right.
Qed.

End Reporting.

(** X17. Provided that addresses are twenty bytes and that printing an
    address and reading it back gives the address, a transaction is offered
    to the channel of a watched address exactly when it carries a value
    above zero and the address is its sender or direct recipient, or some
    receipt log of the transfer-event shape holds the address in the last
    twenty bytes of its second or third topic. *)
Theorem detectTransaction_reports (E : External) (tx : EthTransaction) (receipt : Receipt)
    (blockTime : Z) (address : common_Address) (pc : PlasmaClient) :
  (∀ x, validAddress x → HexToAddress (AddressHex E x) = x) →
  validAddress address →
  is_Some (detectTransaction E tx receipt blockTime address pc).1 ↔
    (0 < txValue tx ∧ (txSender tx = Some address ∨ txTo tx = Some address)) ∨
    (∃ log t1 t2, log ∈ Logs receipt ∧ transferShape log t1 t2 ∧
                  (t1 mod 2 ^ 160 = address ∨ t2 mod 2 ^ 160 = address)).
Proof. intros Hrt Ha. by apply reported_iff. Qed.

Lemma detectTransaction_reports_witness :
  (∀ x, validAddress x → HexToAddress (AddressHex failingNode x) = x) ∧
  validAddress 0x1111111111111111111111111111111111111111 ∧
  is_Some (detectTransaction failingNode paymentTx paymentReceipt 1000
             0x1111111111111111111111111111111111111111 NewPlasmaClient).1.
Proof.
  assert (∀ x, validAddress x → HexToAddress (AddressHex failingNode x) = x) as Hrt.
  { intros x Hx. cbn [AddressHex failingNode].
    rewrite HexToAddress_addressDigits. by apply Z.mod_small. }
  assert (validAddress 0x1111111111111111111111111111111111111111) as Ha.
  { unfold validAddress. lia. }
  split; [exact Hrt|]. split; [exact Ha|].
  apply (detectTransaction_reports failingNode paymentTx paymentReceipt 1000 _
           NewPlasmaClient Hrt Ha).
  left. split; [reflexivity | left; reflexivity].
Defined.

(** *** Scanning a block *)

Section Scan.

Variable E : External.

Lemma offer_spec (txChan : list Transaction) (d : Transaction) :
  (offer txChan d = txChan ++ [d] ∧ (length txChan < chanCap)%nat) ∨
  (offer txChan d = txChan ∧ (chanCap ≤ length txChan)%nat).
Proof.
  unfold offer. destruct (Nat.ltb_spec (length txChan) chanCap); [by left | by right].
Qed.

Lemma scanTransactions_spec (txs : list (EthTransaction * option Receipt))
    (blockTime : Z) (address : common_Address) :
  ∀ (pc : PlasmaClient) (txChan : list Transaction),
  ∃ added,
    (scanTransactions E txs blockTime address pc txChan).1 = txChan ++ added ∧
    (length (txChan ++ added) ≤ Nat.max (length txChan) chanCap)%nat ∧
    Forall (fun d => Transfers d ≠ [] ∧
                     Forall (fun t => touches address t = true) (Transfers d) ∧
                     TxTimestamp d = blockTime) added.
Proof.
  induction txs as [|[tx [receipt|]] txs IH]; intros pc txChan; cbn [scanTransactions].
  - exists []. rewrite app_nil_r. split; [done|]. split; [lia | constructor].
  - destruct (detectTransaction E tx receipt blockTime address pc) as [[d|] pc1] eqn:Hd;
      [|apply IH].
    pose proof (detectTransaction_Some E tx receipt blockTime address pc d) as Hs.
    rewrite Hd in Hs. destruct (Hs eq_refl) as (_ & _ & Hne & Htouch & _ & Htime).
    destruct (offer_spec txChan d) as [[-> Hlt] | [-> Hge]]; [|apply IH].
    destruct (IH pc1 (txChan ++ [d])) as (added & Heq & Hlen & Hall).
    exists (d :: added). rewrite Heq, <- app_assoc. split; [done|]. split.
    + rewrite <- app_assoc in Hlen. cbn [app] in Hlen.
      rewrite (length_app txChan [d]) in Hlen. cbn [length] in Hlen. lia.
    + by constructor.
  - apply IH.
Qed.

End Scan.

(** X18. The scan of a block only appends to the channel of the address,
    never beyond its capacity of one hundred (a full channel is left as it
    is); every transaction it appends has at least one transfer, all of
    them touching the address, and the time of the block.  A block that
    cannot be fetched, and a block whose receipts all fail to load, change
    neither the channel nor the client. *)
Theorem processBlock_channel (E : External)
    (block : option (list (EthTransaction * option Receipt) * Z))
    (address : common_Address) (pc : PlasmaClient) (txChan : list Transaction) :
  (∃ added,
     (processBlockForAddress E block address pc txChan).1 = txChan ++ added ∧
     (length (txChan ++ added) ≤ Nat.max (length txChan) chanCap)%nat ∧
     Forall (fun d => Transfers d ≠ [] ∧
                      Forall (fun t => touches address t = true) (Transfers d)) added) ∧
  (block = None → processBlockForAddress E block address pc txChan = (txChan, pc)) ∧
  (∀ txs blockTime, block = Some (txs, blockTime) → Forall (fun p => p.2 = None) txs →
     processBlockForAddress E block address pc txChan = (txChan, pc)).
Proof.
  split; [|split].
  - destruct block as [[txs blockTime]|]; cbn [processBlockForAddress].
    + destruct (scanTransactions_spec E txs blockTime address pc txChan)
        as (added & Heq & Hlen & Hall).
      exists added. split; [done|]. split; [done|].
      eapply Forall_impl; [exact Hall|]. intros d (H1 & H2 & _). by split.
    + exists []. rewrite app_nil_r. split; [done|]. split; [lia | constructor].
  - by intros ->.
  - intros txs blockTime -> Hall. cbn [processBlockForAddress].
    induction Hall as [|[tx o] txs Ho _ IH]; [done|].
    cbn in Ho. subst o. exact IH.
Qed.

Lemma processBlock_channel_witness :
  processBlockForAddress failingNode
    (Some ([(paymentTx, None); (tokenTx, None)], 1000))
    0x1111111111111111111111111111111111111111 NewPlasmaClient []
    = ([], NewPlasmaClient).
Proof.
  refine (proj2 (proj2 (processBlock_channel failingNode
    (Some ([(paymentTx, None); (tokenTx, None)], 1000))
    0x1111111111111111111111111111111111111111 NewPlasmaClient [])) _ _ eq_refl _).
  repeat constructor.
Defined.

(** *** The helpers of [erc20.go] *)

(** X19. [ParseTransferEvent] fails exactly on a log with fewer than three
    topics and does not look at the event signature; the logs that
    extraction and the involvement filter treat as transfers are those that
    [IsERC20Transfer] accepts and [ParseTransferEvent] parses, and on them
    [ParseTransferEvent] returns the sender, the recipient and the value
    that extraction records. *)
Theorem transfer_helpers_agree (log : Log) :
  (ParseTransferEvent log = inl "invalid transfer event"%string ↔
     (length (Topics log) < 3)%nat) ∧
  (isTransferLog log = true ↔
     IsERC20Transfer log = true ∧ ∃ r, ParseTransferEvent log = inr r) ∧
  (∀ t1 t2, transferShape log t1 t2 →
     ParseTransferEvent log = inr (topicAddress t1, topicAddress t2, bigEndian (Data log))).
Proof.
  unfold ParseTransferEvent, isTransferLog, IsERC20Transfer. split; [|split].
  - destruct (Nat.ltb_spec (length (Topics log)) 3); split; try done. lia.
  - rewrite !andb_true_iff, Nat.leb_le, Nat.ltb_lt.
    destruct (Nat.ltb_spec (length (Topics log)) 3); split.
    + intros [Hlen _]. lia.
    + intros [_ [r [=]]].
    + intros [Hlen Hsig]. split; [split; [lia | done] | by eexists].
    + intros [[_ Hsig] _]. by split.
  - intros t1 t2 [rest Htop]. rewrite Htop. cbn [length nth].
    change (S (S (S (length rest))) <? 3)%nat with false. cbv iota.
    by rewrite SetBytes_bigEndian.
Qed.

Lemma transfer_helpers_agree_witness :
  transferShape tokenLog 0x1111111111111111111111111111111111111111
                         0x2222222222222222222222222222222222222222 ∧
  ParseTransferEvent tokenLog =
    inr (topicAddress 0x1111111111111111111111111111111111111111,
         topicAddress 0x2222222222222222222222222222222222222222,
         bigEndian (Data tokenLog)).
Proof.
  assert (transferShape tokenLog 0x1111111111111111111111111111111111111111
                        0x2222222222222222222222222222222222222222) as Hshape
    by (exists []; reflexivity).
  split; [exact Hshape|].
  exact (proj2 (proj2 (transfer_helpers_agree tokenLog)) _ _ Hshape).
Defined.

(** *** Queries by transaction hash *)

Section Queries.

Variables (E : External) (node : Node).

Lemma GetTransaction_cases (hash : TransactionHash) (pc : PlasmaClient) :
  (∃ err, GetTransaction E node hash pc = (inl err, pc) ∧
      ((∃ e, TransactionByHash node (HexToHash hash) = inl e) ∨
       (∃ tx, TransactionByHash node (HexToHash hash) = inr (tx, true) ∧
              err = "transaction is pending"%string) ∨
       (∃ tx e, TransactionByHash node (HexToHash hash) = inr (tx, false) ∧
                TransactionReceipt node (HexToHash hash) = inl e) ∨
       (∃ tx receipt blockHash e,
          TransactionByHash node (HexToHash hash) = inr (tx, false) ∧
          TransactionReceipt node (HexToHash hash) = inr (receipt, blockHash) ∧
          BlockByHash node blockHash = inl e))) ∨
  (∃ tx receipt blockHash blockTime,
      TransactionByHash node (HexToHash hash) = inr (tx, false) ∧
      TransactionReceipt node (HexToHash hash) = inr (receipt, blockHash) ∧
      BlockByHash node blockHash = inr blockTime ∧
      GetTransaction E node hash pc =
        (inr (createDomainTransaction E tx receipt blockTime pc).1,
         (createDomainTransaction E tx receipt blockTime pc).2)).
Proof.
  unfold GetTransaction.
  destruct (TransactionByHash node (HexToHash hash)) as [e | [tx [|]]] eqn:Ht.
  - left. eexists. split; [done|]. left. by exists e.
  - left. eexists. split; [done|]. right; left. by exists tx.
  - destruct (TransactionReceipt node (HexToHash hash)) as [e | [receipt blockHash]] eqn:Hr.
    + left. eexists. split; [done|]. right; right; left. by exists tx, e.
    + destruct (BlockByHash node blockHash) as [e | blockTime] eqn:Hb.
      * left. eexists. split; [done|]. right; right; right. by exists tx, receipt, blockHash, e.
      * right. exists tx, receipt, blockHash, blockTime. repeat (split; [done|]).
        by destruct (createDomainTransaction E tx receipt blockTime pc).
Qed.

End Queries.

(** X20. [GetTransaction] returns an error, with the client unchanged, when
    the transaction cannot be fetched, when it is pending (the error is
    then [transaction is pending], whatever the receipt), when its receipt
    cannot be fetched, or when the block of the receipt cannot be fetched;
    otherwise it returns the domain transaction built from the
    transaction, the receipt and the block time. *)
Theorem GetTransaction_outcomes (E : External) (node : Node) (hash : TransactionHash)
    (pc : PlasmaClient) :
  (∀ err, (GetTransaction E node hash pc).1 = inl err →
     (GetTransaction E node hash pc).2 = pc ∧
     ((∃ e, TransactionByHash node (HexToHash hash) = inl e) ∨
      (∃ tx, TransactionByHash node (HexToHash hash) = inr (tx, true) ∧
             err = "transaction is pending"%string) ∨
      (∃ tx e, TransactionByHash node (HexToHash hash) = inr (tx, false) ∧
               TransactionReceipt node (HexToHash hash) = inl e) ∨
      (∃ tx receipt blockHash e,
         TransactionByHash node (HexToHash hash) = inr (tx, false) ∧
         TransactionReceipt node (HexToHash hash) = inr (receipt, blockHash) ∧
         BlockByHash node blockHash = inl e))) ∧
  (∀ d, (GetTransaction E node hash pc).1 = inr d →
     ∃ tx receipt blockHash blockTime,
       TransactionByHash node (HexToHash hash) = inr (tx, false) ∧
       TransactionReceipt node (HexToHash hash) = inr (receipt, blockHash) ∧
       BlockByHash node blockHash = inr blockTime ∧
       d = (createDomainTransaction E tx receipt blockTime pc).1 ∧
       (GetTransaction E node hash pc).2 = (createDomainTransaction E tx receipt blockTime pc).2 ∧
       Transfers d = (extractAllTransfers E tx receipt pc).1).
Proof.
  destruct (GetTransaction_cases E node hash pc)
    as [(err0 & Hq & Hwhy) | (tx & receipt & blockHash & blockTime & Ht & Hr & Hb & Hq)];
    rewrite Hq; cbn [fst snd]; split.
  - intros err [= <-]. by split.
  - intros d [=].
  - intros err [=].
  - intros d [= <-]. exists tx, receipt, blockHash, blockTime.
    repeat (split; [done|]).
    unfold createDomainTransaction.
    by destruct (extractAllTransfers E tx receipt pc).
Qed.

Lemma GetTransaction_outcomes_witness :
  (∃ d, (GetTransaction failingNode paymentNode "0x77" NewPlasmaClient).1 = inr d ∧
        Transfers d = (extractAllTransfers failingNode paymentTx paymentReceipt
                         NewPlasmaClient).1) ∧
  (∃ err, (GetTransaction failingNode pendingNode "0x77" NewPlasmaClient).1 = inl err ∧
          err = "transaction is pending"%string ∧
          (GetTransaction failingNode pendingNode "0x77" NewPlasmaClient).2
            = NewPlasmaClient).
Proof.
  split.
  - eexists. split; [vm_compute; reflexivity|].
    destruct (proj2 (GetTransaction_outcomes failingNode paymentNode "0x77" NewPlasmaClient)
                _ eq_refl) as (tx & receipt & blockHash & blockTime & Ht & Hr & _ & _ & _ & Htr).
    injection Ht as <-. injection Hr as <- _. exact Htr.
  - eexists. split; [vm_compute; reflexivity|]. split; [reflexivity|].
    exact (proj1 (proj1 (GetTransaction_outcomes failingNode pendingNode "0x77"
                           NewPlasmaClient) _ eq_refl)).
Defined.

(** *** Resolutions in turn and resolutions that overlap *)

Section Interleaving.

Variable E : External.

Implicit Types (a b : common_Address) (pc : PlasmaClient) (st : Shared).

Lemma advance_idle k st : inFlight st = [] → advance E k st = st.
Proof. intros H. unfold advance. by rewrite H, lookup_nil. Qed.

(** A resolution that runs to its end without another in between is
    [getTokenSymbol]. *)
Lemma inTurn_one a st :
  inFlight st = [] →
  runSchedule E [Start a; Advance 0; Advance 0] st =
    {| client := (getTokenSymbol E a (client st)).2;
       inFlight := [];
       returned := returned st ++ [(a, (getTokenSymbol E a (client st)).1)] |}.
Proof.
  intros Hidle. unfold runSchedule. cbn [fold_left event].
  unfold startResolve, getTokenSymbol, GetTokenSymbol. rewrite Hidle.
  destruct (tokenCache (client st) !! a) as [s|] eqn:Hc.
  { by rewrite !advance_idle. }
  destruct (String.eqb (AddressHex E a) zeroAddressHex).
  { by rewrite !advance_idle. }
  destruct (String.eqb (AddressHex E a) "0xa0b86a33e6ba0c74d75c9abfd35e5e0b1bcceb83").
  { by rewrite !advance_idle. }
  destruct (abiParses E); cbn [negb]; [|by rewrite !advance_idle].
  unfold advance, GetTokenSymbol. cbn. done.
Qed.

Lemma inTurn_run (addrs : list common_Address) st :
  inFlight st = [] →
  client (runSchedule E (inTurn addrs) st) = resolveMany E addrs (client st) ∧
  inFlight (runSchedule E (inTurn addrs) st) = [].
Proof.
  revert st; induction addrs as [|a addrs IH]; intros st Hidle; [done|].
  change (inTurn (a :: addrs)) with ([Start a; Advance 0; Advance 0] ++ inTurn addrs).
  unfold runSchedule. rewrite fold_left_app.
  fold (runSchedule E [Start a; Advance 0; Advance 0] st).
  rewrite (inTurn_one a st Hidle).
  match goal with |- context [fold_left _ _ ?s] => destruct (IH s eq_refl) as [Hc Hf] end.
  unfold runSchedule in Hc, Hf. by rewrite Hc, Hf.
Qed.

(** Two resolutions of an uncached contract that overlap. *)
Lemma overlapping_steps a pc :
  abiParses E = true → builtin E a = false → tokenCache pc !! a = None →
  let n := length (symbolCalls pc) in
  runSchedule E (take 5 (overlapping a)) (idle pc) =
    {| client := {| tokenCache := <[a := calledSymbol E n a]> (tokenCache pc);
                    symbolCalls := (symbolCalls pc ++ [a]) ++ [a] |};
       inFlight := [AwaitWrite a (calledSymbol E (S n) a)];
       returned := [(a, calledSymbol E n a)] |} ∧
  runSchedule E (overlapping a) (idle pc) =
    {| client := {| tokenCache :=
                      <[a := calledSymbol E (S n) a]>
                        (<[a := calledSymbol E n a]> (tokenCache pc));
                    symbolCalls := (symbolCalls pc ++ [a]) ++ [a] |};
       inFlight := [];
       returned := [(a, calledSymbol E n a); (a, calledSymbol E (S n) a)] |}.
Proof.
  intros Habi Hb Hc n. unfold builtin in Hb. apply orb_false_iff in Hb as [Hz Hw].
  unfold runSchedule, overlapping. cbn [take fold_left event].
  unfold startResolve at 2 4. cbn [idle client inFlight returned].
  rewrite Hc, Hz, Hw, Habi. cbn [negb].
  unfold startResolve. cbn [client inFlight returned]. rewrite Hc, Hz, Hw, Habi. cbn [negb app].
  unfold advance, GetTokenSymbol, calledSymbol.
  cbn [inFlight client returned lookup list_lookup symbolCalls tokenCache
       insert list_insert delete list_delete app].
  rewrite length_app. cbn [length]. replace (length (symbolCalls pc) + 1)%nat with (S n) by (unfold n; lia).
  fold n. done.
Qed.

(** *** What every interleaving keeps *)

Lemma event_cache_keys a st ev :
  is_Some (tokenCache (client st) !! a) →
  is_Some (tokenCache (client (event E st ev)) !! a).
Proof.
  intros Ha. destruct ev as [b | k]; cbn [event].
  - unfold startResolve.
    destruct (tokenCache (client st) !! b); [done|].
    repeat (match goal with |- context [if ?c then _ else _] => destruct c end); done.
  - unfold advance. destruct (inFlight st !! k) as [[b | b s]|]; cbn; [done | | done].
    destruct (decide (b = a)) as [->|Hne].
    + rewrite lookup_insert_eq. by eexists.
    + by rewrite lookup_insert_ne.
Qed.

Lemma runSchedule_cache_keys a (evs : list Event) st :
  is_Some (tokenCache (client st) !! a) →
  is_Some (tokenCache (client (runSchedule E evs st)) !! a).
Proof.
  revert st; induction evs as [|ev evs IH]; intros st Ha; [done|].
  cbn [runSchedule fold_left]. apply IH. by apply event_cache_keys.
Qed.

Lemma flight_insert_write (l : list InFlight) k a s :
  l !! k = Some (AwaitCall a) →
  map flightAddress (<[k := AwaitWrite a s]> l) = map flightAddress l.
Proof.
  revert k; induction l as [|f l IH]; intros k Hk; [done|].
  destruct k as [|k]; cbn in *.
  - by injection Hk as ->.
  - f_equal. by apply IH.
Qed.

Lemma flight_delete (l : list InFlight) k b :
  b ∈ map flightAddress (delete k l) → b ∈ map flightAddress l.
Proof.
  revert k; induction l as [|f l IH]; intros k; [by destruct k|].
  destruct k as [|k]; cbn.
  - intros H. by right.
  - intros H. apply elem_of_cons in H as [-> | H]; [left | right; by apply (IH k)].
Qed.

Lemma flight_lookup (l : list InFlight) k f :
  l !! k = Some f → flightAddress f ∈ map flightAddress l.
Proof.
  revert k; induction l as [|g l IH]; intros k Hk; [done|].
  destruct k as [|k]; cbn in *.
  - injection Hk as ->. left.
  - right. by apply (IH k).
Qed.

Lemma nativeUntouched_idle : nativeUntouched E (idle NewPlasmaClient).
Proof.
  split.
  - intros a _. cbn. rewrite lookup_empty. split; [done|]. split; apply not_elem_of_nil.
  - intros a s H. by apply elem_of_nil in H.
Qed.

Lemma nativeUntouched_event st ev : nativeUntouched E st → nativeUntouched E (event E st ev).
Proof.
  intros [I1 I2]. destruct ev as [b | k]; cbn [event].
  - unfold startResolve.
    assert (∀ s, (AddressHex E b = zeroAddressHex → s = "XPL"%string) →
              nativeUntouched E {| client := client st; inFlight := inFlight st;
                                   returned := returned st ++ [(b, s)] |}) as Hanswer.
    { intros s Hs. split; [exact I1|]. cbn [returned]. intros a s' Hin Ha.
      apply elem_of_app in Hin as [Hin | Hin]; [by apply (I2 a)|].
      apply list_elem_of_singleton in Hin. injection Hin as -> ->. by apply Hs. }
    destruct (tokenCache (client st) !! b) as [s|] eqn:Hc.
    { apply Hanswer. intros Hb. destruct (I1 b Hb) as [Hn _]. congruence. }
    destruct (String.eqb_spec (AddressHex E b) zeroAddressHex) as [Hz|Hz].
    { by apply Hanswer. }
    destruct (String.eqb (AddressHex E b) "0xa0b86a33e6ba0c74d75c9abfd35e5e0b1bcceb83").
    { by apply Hanswer. }
    destruct (abiParses E); cbn [negb]; [|by apply Hanswer].
    split; [|exact I2]. cbn [client inFlight]. intros a Ha.
    destruct (I1 a Ha) as (H1 & H2 & H3). split; [done|]. split; [done|].
    rewrite map_app. cbn. rewrite elem_of_app, list_elem_of_singleton.
    intros [H | ->]; [by apply H3 | by apply Hz].
  - unfold advance. destruct (inFlight st !! k) as [[b | b s]|] eqn:Hk; [| |by split].
    + assert (AddressHex E b ≠ zeroAddressHex) as Hb.
      { intros Hb. destruct (I1 b Hb) as (_ & _ & H3). apply H3.
        by apply (flight_lookup _ k (AwaitCall b)). }
      cbn. split; [|exact I2]. cbn [client inFlight tokenCache symbolCalls]. intros a Ha.
      destruct (I1 a Ha) as (H1 & H2 & H3). split; [done|]. split.
      * rewrite elem_of_app, list_elem_of_singleton. intros [H | ->]; [by apply H2 | by apply Hb].
      * by rewrite (flight_insert_write _ _ _ _ Hk).
    + assert (AddressHex E b ≠ zeroAddressHex) as Hb.
      { intros Hb. destruct (I1 b Hb) as (_ & _ & H3). apply H3.
        by apply (flight_lookup _ k (AwaitWrite b s)). }
      split; cbn [client inFlight returned tokenCache symbolCalls].
      * intros a Ha. destruct (I1 a Ha) as (H1 & H2 & H3). split; [|split; [done|]].
        -- rewrite lookup_insert_ne; [done|]. intros ->. by apply Hb.
        -- intros H. apply H3. by apply (flight_delete _ k).
      * intros a s' Hin Ha. apply elem_of_app in Hin as [Hin | Hin]; [by apply (I2 a)|].
        apply list_elem_of_singleton in Hin. injection Hin as -> ->. by destruct (Hb Ha).
Qed.

Lemma nativeUntouched_run (evs : list Event) st :
  nativeUntouched E st → nativeUntouched E (runSchedule E evs st).
Proof.
  revert st; induction evs as [|ev evs IH]; intros st Hinv; [done|].
  cbn [runSchedule fold_left]. apply IH. by apply nativeUntouched_event.
Qed.

End Interleaving.

(** X8. When resolutions do not overlap, a contract keeps the symbol of its
    first resolution: after it has been resolved once and any contracts
    have been resolved in turn, resolving it again returns the same symbol
    and leaves the client unchanged.  When two resolutions of a contract
    that is not cached overlap, each returns the symbol of its own call, so
    the two can differ. *)
Theorem resolved_symbol_is_stable (E : External) (a : common_Address)
    (addrs : list common_Address) (st0 : Shared) :
  (inFlight st0 = [] →
   let st1 := runSchedule E (inTurn [a]) st0 in
   let st2 := runSchedule E (inTurn addrs) st1 in
   let st3 := runSchedule E (inTurn [a]) st2 in
   ∃ s, returned st1 = returned st0 ++ [(a, s)] ∧
        returned st3 = returned st2 ++ [(a, s)] ∧
        client st3 = client st2) ∧
  (abiParses E = true → builtin E a = false →
   returned (runSchedule E (overlapping a) (idle NewPlasmaClient)) =
     [(a, calledSymbol E 0 a); (a, calledSymbol E 1 a)]).
Proof.
  split.
  - intros Hidle st1 st2 st3.
    assert (st1 = {| client := (getTokenSymbol E a (client st0)).2; inFlight := [];
                     returned := returned st0 ++ [(a, (getTokenSymbol E a (client st0)).1)] |})
      as H1 by (apply (inTurn_one E a st0 Hidle)).
    assert (inFlight st1 = []) as Hidle1 by (by rewrite H1).
    destruct (inTurn_run E addrs st1 Hidle1) as [Hc2 Hidle2]. fold st2 in Hc2, Hidle2.
    assert (st3 = {| client := (getTokenSymbol E a (client st2)).2; inFlight := [];
                     returned := returned st2 ++ [(a, (getTokenSymbol E a (client st2)).1)] |})
      as H3 by (apply (inTurn_one E a st2 Hidle2)).
    assert (getTokenSymbol E a (client st2) =
              ((getTokenSymbol E a (client st0)).1, client st2)) as Hq.
    { rewrite Hc2, H1. cbn [client].
      apply settled_resolves, settled_resolveMany, settled_after. }
    exists (getTokenSymbol E a (client st0)).1.
    split; [by rewrite H1|]. rewrite H3, Hq. by split.
  - intros Habi Hb.
    destruct (overlapping_steps E a NewPlasmaClient Habi Hb (lookup_empty a)) as [_ ->].
    reflexivity.
Qed.

Lemma resolved_symbol_is_stable_witness :
  (inFlight (idle NewPlasmaClient) = [] ∧
   ∃ s, returned (runSchedule recoveringNode (inTurn [tokenT]) (idle NewPlasmaClient))
          = [(tokenT, s)]) ∧
  (abiParses recoveringNode = true ∧ builtin recoveringNode tokenT = false ∧
   returned (runSchedule recoveringNode (overlapping tokenT) (idle NewPlasmaClient)) =
     [(tokenT, "0x333333"%string); (tokenT, "USDT"%string)]).
Proof.
  split.
  - split; [reflexivity|].
    destruct (proj1 (resolved_symbol_is_stable recoveringNode tokenT [5; tokenT]
                       (idle NewPlasmaClient)) eq_refl) as (s & H1 & _).
    by exists s.
  - assert (abiParses recoveringNode = true) as Habi by reflexivity.
    assert (builtin recoveringNode tokenT = false) as Hb by (vm_compute; reflexivity).
    split; [exact Habi|]. split; [exact Hb|].
    exact (proj2 (resolved_symbol_is_stable recoveringNode tokenT [] (idle NewPlasmaClient))
             Habi Hb).
Defined.

(** X9. When resolutions do not overlap, a client that starts with an empty
    cache never issues the symbol call of a contract twice, and every
    contract it has called is in its cache.  Two resolutions that overlap
    on a contract that is neither cached nor in the table each issue the
    call: the contract is called twice. *)
Theorem one_symbol_call_per_contract (E : External) (addrs : list common_Address)
    (a : common_Address) :
  (let st := runSchedule E (inTurn addrs) (idle NewPlasmaClient) in
   NoDup (symbolCalls (client st)) ∧
   ∀ b, b ∈ symbolCalls (client st) → is_Some (tokenCache (client st) !! b)) ∧
  (abiParses E = true → builtin E a = false →
   symbolCalls (client (runSchedule E (overlapping a) (idle NewPlasmaClient))) = [a; a]).
Proof.
  split.
  - intros st. destruct (inTurn_run E addrs (idle NewPlasmaClient) eq_refl) as [Hc _].
    fold st in Hc. rewrite Hc. cbn [idle client].
    destruct (cacheInv_resolveMany E addrs _ (cacheInv_new E)) as (I1 & I2 & _). by split.
  - intros Habi Hb.
    destruct (overlapping_steps E a NewPlasmaClient Habi Hb (lookup_empty a)) as [_ ->].
    reflexivity.
Qed.

Lemma one_symbol_call_per_contract_witness :
  (tokenT ∈ symbolCalls
     (client (runSchedule recoveringNode (inTurn [tokenT; 5; tokenT]) (idle NewPlasmaClient))) ∧
   is_Some (tokenCache
     (client (runSchedule recoveringNode (inTurn [tokenT; 5; tokenT]) (idle NewPlasmaClient)))
     !! tokenT)) ∧
  (abiParses recoveringNode = true ∧ builtin recoveringNode tokenT = false ∧
   symbolCalls (client (runSchedule recoveringNode (overlapping tokenT)
                          (idle NewPlasmaClient))) = [tokenT; tokenT]).
Proof.
  split.
  - assert (tokenT ∈ symbolCalls (client (runSchedule recoveringNode
              (inTurn [tokenT; 5; tokenT]) (idle NewPlasmaClient)))) as Hin.
    { vm_compute. left. }
    split; [exact Hin|].
    exact (proj2 (proj1 (one_symbol_call_per_contract recoveringNode [tokenT; 5; tokenT]
                           tokenT)) _ Hin).
  - assert (abiParses recoveringNode = true) as Habi by reflexivity.
    assert (builtin recoveringNode tokenT = false) as Hb by (vm_compute; reflexivity).
    split; [exact Habi|]. split; [exact Hb|].
    exact (proj2 (one_symbol_call_per_contract recoveringNode [] tokenT) Habi Hb).
Defined.

(** X10. Under every interleaving of resolutions in a client that started
    with an empty cache, the zero address, whose symbol is that of the
    native asset, is never cached and never called; every resolution of it
    has returned [XPL], and a new resolution of it returns [XPL] at once
    without changing the client. *)
Theorem native_symbol_needs_no_call (E : External) (evs : list Event)
    (a : common_Address) :
  AddressHex E a = zeroAddressHex →
  let st := runSchedule E evs (idle NewPlasmaClient) in
  tokenCache (client st) !! a = None ∧
  (a ∉ symbolCalls (client st)) ∧
  (∀ s, (a, s) ∈ returned st → s = "XPL"%string) ∧
  startResolve E a st =
    {| client := client st; inFlight := inFlight st;
       returned := returned st ++ [(a, "XPL"%string)] |}.
Proof.
  intros Ha st.
  destruct (nativeUntouched_run E evs _ (nativeUntouched_idle E)) as [I1 I2]. fold st in I1, I2.
  destruct (I1 a Ha) as (Hc & Hcalls & _).
  split; [exact Hc|]. split; [exact Hcalls|]. split.
  - intros s Hin. by apply (I2 a).
  - unfold startResolve. rewrite Hc, Ha. by rewrite String.eqb_refl.
Qed.

Lemma native_symbol_needs_no_call_witness :
  AddressHex failingNode 0 = zeroAddressHex ∧
  returned (startResolve failingNode 0
              (runSchedule failingNode (overlapping tokenT ++ [Start 0])
                 (idle NewPlasmaClient))) =
    returned (runSchedule failingNode (overlapping tokenT ++ [Start 0])
                (idle NewPlasmaClient)) ++ [(0, "XPL"%string)].
Proof.
  assert (AddressHex failingNode 0 = zeroAddressHex) as Hh by (vm_compute; reflexivity).
  split; [exact Hh|].
  destruct (native_symbol_needs_no_call failingNode (overlapping tokenT ++ [Start 0]) 0 Hh)
    as (_ & _ & _ & Hq).
  by rewrite Hq.
Defined.

(** X11. Under every interleaving of resolutions the cache keeps its keys:
    a cached contract stays cached.  When resolutions do not overlap it
    also keeps its symbol.  When two resolutions of a contract that is
    neither cached nor in the table overlap, both write: the cache holds
    the symbol of the first call after the first write and the symbol of
    the second call after the second. *)
Theorem cache_entries_are_permanent (E : External) (evs : list Event)
    (addrs : list common_Address) (a : common_Address) (s : string) (st : Shared) :
  (is_Some (tokenCache (client st) !! a) →
   is_Some (tokenCache (client (runSchedule E evs st)) !! a)) ∧
  (inFlight st = [] → tokenCache (client st) !! a = Some s →
   tokenCache (client (runSchedule E (inTurn addrs) st)) !! a = Some s) ∧
  (abiParses E = true → builtin E a = false →
   tokenCache (client (runSchedule E (take 5 (overlapping a)) (idle NewPlasmaClient))) !! a
     = Some (calledSymbol E 0 a) ∧
   tokenCache (client (runSchedule E (overlapping a) (idle NewPlasmaClient))) !! a
     = Some (calledSymbol E 1 a)).
Proof.
  split; [apply runSchedule_cache_keys|]. split.
  - intros Hidle Hs. destruct (inTurn_run E addrs st Hidle) as [-> _].
    by apply resolveMany_cache_grows.
  - intros Habi Hb.
    destruct (overlapping_steps E a NewPlasmaClient Habi Hb (lookup_empty a)) as [-> ->].
    cbn [client tokenCache]. by rewrite !lookup_insert_eq.
Qed.

Lemma cache_entries_are_permanent_witness :
  (inFlight (runSchedule recoveringNode (inTurn [tokenT]) (idle NewPlasmaClient)) = [] ∧
   tokenCache (client (runSchedule recoveringNode (inTurn [tokenT]) (idle NewPlasmaClient)))
     !! tokenT = Some "0x333333"%string ∧
   tokenCache (client (runSchedule recoveringNode (inTurn [tokenT; 5; tokenT])
                         (runSchedule recoveringNode (inTurn [tokenT])
                            (idle NewPlasmaClient)))) !! tokenT
     = Some "0x333333"%string) ∧
  (abiParses recoveringNode = true ∧ builtin recoveringNode tokenT = false ∧
   tokenCache (client (runSchedule recoveringNode (take 5 (overlapping tokenT))
                         (idle NewPlasmaClient))) !! tokenT = Some "0x333333"%string ∧
   tokenCache (client (runSchedule recoveringNode (overlapping tokenT)
                         (idle NewPlasmaClient))) !! tokenT = Some "USDT"%string).
Proof.
  split.
  - assert (inFlight (runSchedule recoveringNode (inTurn [tokenT]) (idle NewPlasmaClient))
              = []) as Hidle by (vm_compute; reflexivity).
    assert (tokenCache (client (runSchedule recoveringNode (inTurn [tokenT])
              (idle NewPlasmaClient))) !! tokenT = Some "0x333333"%string) as Hs
      by (vm_compute; reflexivity).
    split; [exact Hidle|]. split; [exact Hs|].
    exact (proj1 (proj2 (cache_entries_are_permanent recoveringNode []
                           [tokenT; 5; tokenT] tokenT _ _)) Hidle Hs).
  - assert (abiParses recoveringNode = true) as Habi by reflexivity.
    assert (builtin recoveringNode tokenT = false) as Hb by (vm_compute; reflexivity).
    split; [exact Habi|]. split; [exact Hb|].
    exact (proj2 (proj2 (cache_entries_are_permanent recoveringNode [] [] tokenT
                           EmptyString (idle NewPlasmaClient))) Habi Hb).
Defined.
